(** * Electrostatic field-line engine (EMField_Simulation.py, class Charges)

    A shallow embedding of the [Charges] class: the charge store with its
    add / delete / move / snapshot / nearest operations, the scaled electric
    field and the field-line tracer.

    The arrays of the source are numpy float64 arrays.  The embedding is
    written once over a class [Numeric] of scalar operations and is then
    read at two instances:
    - [float] (Rocq's primitive binary64 numbers), where the definitions
      run and the results are the ones the IEEE-754 operations of numpy give;
    - [R], exact real arithmetic, where the statements about distances and
      norms are proved without rounding, underflow or overflow.

    numpy functions are modelled after their implementation ([np_delete],
    [np_argmin], [np_linspace], ...); [scipy.integrate.odeint] is a
    parameter of the tracer. *)

From Stdlib Require Import ZArith List Bool Lia.
From Stdlib Require Import Reals Lra Psatz.
From Stdlib Require Import Floats.PrimFloat Uint63.
From Stdlib Require Import Floats.SpecFloat Floats.FloatOps Floats.FloatAxioms.
From stdpp Require Import base list.

Set Warnings "-inexact-float".

(** ** Python exceptions and the error monad *)

Inductive exn : Type :=
| IndexError
| ValueError
| ZeroDivisionError.

Inductive result (A : Type) : Type :=
| Ok (a : A)
| Raise (e : exn).
Arguments Ok {A} a.
Arguments Raise {A} e.

#[global] Instance result_ret : MRet result := fun _ a => Ok a.
#[global] Instance result_bind : MBind result := fun _ _ f m =>
  match m with
  | Ok a => f a
  | Raise e => Raise e
  end.

(** [mapM] of stdpp, read in the error monad: the first failure wins. *)
Fixpoint result_mapM {A B} (f : A -> result B) (l : list A) : result (list B) :=
  match l with
  | [] => Ok []
  | x :: l' => y ← f x; ys ← result_mapM f l'; Ok (y :: ys)
  end.

(** ** Scalars *)

(** The float64 operations the source uses. [flit_1em4] is the literal
    [0.0001] of [scaled_electric_field]. *)
Class Numeric (F : Type) : Type := {
  fzero : F;
  of_Z : Z -> F;
  fadd : F -> F -> F;
  fsub : F -> F -> F;
  fmul : F -> F -> F;
  fdiv : F -> F -> F;
  fsqrt : F -> F;
  feqb : F -> F -> bool;
  fltb : F -> F -> bool;
  fleb : F -> F -> bool;
  fisnan : F -> bool;
  flit_1em4 : F
}.

(** [np.pi], [np.cos], [np.sin]. *)
Class Trig (F : Type) : Type := {
  fpi : F;
  fcos : F -> F;
  fsin : F -> F
}.

#[global] Hint Mode Numeric ! : typeclass_instances.
#[global] Hint Mode Trig ! : typeclass_instances.

Declare Scope num_scope.
Delimit Scope num_scope with num.
Infix "+" := fadd : num_scope.
Infix "-" := fsub : num_scope.
Infix "*" := fmul : num_scope.
Infix "/" := fdiv : num_scope.

(** binary64 *)
#[global] Instance float_numeric : Numeric float := {|
  fzero := 0%float;
  of_Z := fun z =>
    if (z <? 0)%Z then PrimFloat.opp (PrimFloat.of_uint63 (Uint63.of_Z (- z)))
    else PrimFloat.of_uint63 (Uint63.of_Z z);
  fadd := PrimFloat.add;
  fsub := PrimFloat.sub;
  fmul := PrimFloat.mul;
  fdiv := PrimFloat.div;
  fsqrt := PrimFloat.sqrt;
  feqb := PrimFloat.eqb;
  fltb := PrimFloat.ltb;
  fleb := PrimFloat.leb;
  fisnan := PrimFloat.is_nan;
  flit_1em4 := 0.0001%float
|}.

(** exact reals *)
#[global] Instance R_numeric : Numeric R := {|
  fzero := 0%R;
  of_Z := IZR;
  fadd := Rplus;
  fsub := Rminus;
  fmul := Rmult;
  fdiv := Rdiv;
  fsqrt := R_sqrt.sqrt;
  feqb := fun x y => if Req_dec_T x y then true else false;
  fltb := fun x y => if Rlt_dec x y then true else false;
  fleb := fun x y => if Rle_dec x y then true else false;
  fisnan := fun _ => false;
  flit_1em4 := (1 / 10000)%R
|}.

#[global] Instance R_trig : Trig R := {|
  fpi := PI;
  fcos := cos;
  fsin := sin
|}.

(** ** numpy *)

Section Numpy.
Context {A : Type}.

(** An integer index into an axis of length [n]: negative indices count
    from the end, anything outside [-n, n) raises [IndexError]. *)
Definition np_index (n : nat) (k : Z) : result nat :=
  let n := Z.of_nat n in
  if ((k <? - n) || (n <=? k))%Z then Raise IndexError
  else Ok (Z.to_nat (if (k <? 0)%Z then k + n else k)).

(** [np.delete(arr, k)] / [np.delete(arr, k, 0)]: a new array. *)
Definition np_delete (arr : list A) (k : Z) : result (list A) :=
  i ← np_index (length arr) k; Ok (delete i arr).

(** [arr[k]] / [arr[k, :]] *)
Definition np_getitem (arr : list A) (k : Z) : result A :=
  i ← np_index (length arr) k;
  match arr !! i with
  | Some x => Ok x
  | None => Raise IndexError
  end.

(** [arr[k, :] = x] *)
Definition np_setitem (arr : list A) (k : Z) (x : A) : result (list A) :=
  i ← np_index (length arr) k; Ok (<[i := x]> arr).

(** [np.hstack([arr, x])] / [np.vstack([arr, np.array([x])])]: a new
    array with [x] after the elements of [arr]. *)
Definition np_stack (arr : list A) (x : A) : list A := arr ++ [x].

(** [enumerate] *)
Definition enumerate (l : list A) : list (nat * A) := imap pair l.
End Numpy.

Section NumpyNumeric.
Context {F : Type} `{Numeric F}.
Local Open Scope num_scope.

(** [np.sum] along an axis: zero for an empty axis, otherwise the
    elements added to the first one.  (For eight elements and more numpy
    adds in blocks; the order matters in binary64 only, and the binary64
    statements below have at most four charges.  The sign of a sum that
    is a zero is not modelled: in binary64 it can differ from numpy's.) *)
Definition np_sum (l : list F) : F :=
  match l with
  | [] => fzero
  | x :: l' => foldl fadd x l'
  end.

(** The scan of [np.argmin] over float64: the running minimum [mp] at
    index [mi] is replaced by [x] when [mp <= x] fails, and a NaN stops
    the scan. *)
Fixpoint argmin_from (mp : F) (mi i : nat) (l : list F) : nat :=
  match l with
  | [] => mi
  | x :: l' =>
      if negb (fleb mp x)
      then if fisnan x then i else argmin_from x i (S i) l'
      else argmin_from mp mi (S i) l'
  end.

(** [np.argmin(d)]: [ValueError] on an empty array. *)
Definition np_argmin (d : list F) : result nat :=
  match d with
  | [] => Raise ValueError
  | x :: l' => Ok (if fisnan x then 0%nat else argmin_from x 0 1 l')
  end.

(** [np.linspace(start, stop, num)] (endpoint included). *)
Definition np_linspace (start stop : F) (num : Z) : result (list F) :=
  if (num <? 0)%Z then Raise ValueError
  else
    let div := (num - 1)%Z in
    let y := of_Z <$> seqZ 0 num in
    let delta := stop - start in
    let y :=
      if (0 <? div)%Z then
        let step := delta / of_Z div in
        if feqb step fzero
        then (fun v => (v / of_Z div) * delta) <$> y
        else (fun v => v * step) <$> y
      else (fun v => v * delta) <$> y in
    let y := (fun v => v + start) <$> y in
    Ok (if (1 <? num)%Z then <[pred (length y) := stop]> y else y).
End NumpyNumeric.

(** ** The charge collection *)

Record Charges (F : Type) : Type := mkCharges {
  _q : list F;          (* self._q: charge n has the value _q[n] *)
  _pos : list (F * F)   (* self._pos: charge n is at _pos[n] *)
}.
Arguments mkCharges {F} _ _.
Arguments _q {F} _.
Arguments _pos {F} _.

Section ChargeSet.
Context {F : Type} `{Numeric F}.
Local Open Scope num_scope.

(** [Charges.__init__] *)
Definition init : Charges F := mkCharges [] [].

(** The two arrays describe the same charges. *)
Definition wf (c : Charges F) : Prop := length (_q c) = length (_pos c).

Definition size (c : Charges F) : nat := length (_q c).

Definition add_charge (q : F) (xy : F * F) (c : Charges F) : Charges F :=
  mkCharges (np_stack (_q c) q) (np_stack (_pos c) xy).

Definition delete_charge (k : Z) (c : Charges F) : result (Charges F) :=
  if ((0 <=? k) && (k <? Z.of_nat (length (_q c))))%Z then
    q' ← np_delete (_q c) k;
    pos' ← np_delete (_pos c) k;
    Ok (mkCharges q' pos')
  else Ok c.

Definition set_position (k : Z) (xy : F * F) (c : Charges F)
  : result (Charges F) :=
  if ((0 <=? k) && (k <? Z.of_nat (length (_q c))))%Z then
    pos' ← np_setitem (_pos c) k xy;
    Ok (mkCharges (_q c) pos')
  else Ok c.

Definition get_charges (c : Charges F) : result (list (F * (F * F))) :=
  let p := _pos c in
  result_mapM (fun '(k, q) => row ← np_getitem p (Z.of_nat k); Ok (q, row))
              (enumerate (_q c)).

(** [xy - self._pos] *)
Definition displacements (xy : F * F) (c : Charges F) : list (F * F) :=
  (fun p => (xy.1 - p.1, xy.2 - p.2)) <$> _pos c.

(** [np.sum(r**2, axis=1)] *)
Definition sq_norms (r : list (F * F)) : list F :=
  (fun v => v.1 * v.1 + v.2 * v.2) <$> r.

(** [limit**2] is read as the product [limit * limit].  (For a Python
    float [limit] whose square overflows, [limit**2] raises OverflowError;
    the binary64 statements below take a limit in [limit_in_range].) *)
Definition get_closest (xy : F * F) (limit : F) (c : Charges F)
  : result (option nat) :=
  let r := displacements xy c in
  let d := sq_norms r in
  qidx ← np_argmin d;
  dmin ← np_getitem d (Z.of_nat qidx);
  if fltb dmin (limit * limit) then Ok (Some qidx) else Ok None.

(** [etot[k]**2] is read as the product [etot[k] * etot[k]].  Arrays of
    different lengths, on which numpy raises, are cut to the shorter one by
    [zip_with]; the statements below are about collections whose arrays
    have the same length. *)
Definition scaled_electric_field (xy : F * F) (c : Charges F) : F * F :=
  let r := displacements xy c in
  let dsq := sq_norms r in
  let emag := zip_with fdiv (_q c) dsq in
  let eunit := (zip_with fdiv (r.*1) (fsqrt <$> dsq),
                zip_with fdiv (r.*2) (fsqrt <$> dsq)) in
  let e := (zip_with fmul emag eunit.1, zip_with fmul emag eunit.2) in
  let etot := (np_sum e.1, np_sum e.2) in
  let s := etot.1 * etot.1 + etot.2 * etot.2 in
  (etot.1 / (s + flit_1em4), etot.2 / (s + flit_1em4)).
End ChargeSet.

(** ** The field-line tracer *)

Section Tracer.
Context {F : Type} `{Numeric F} `{Trig F}.
Local Open Scope num_scope.

(** [scipy.integrate.odeint(func, y0, t)]: the solver is not part of the
    program; the tracer is parametrised by it.  [t] holds the sample points,
    the first of which is the initial one, and the result has a row for
    each of them; the statements below take [points >= 1]. *)
Variable odeint : (F * F -> F -> F * F) -> F * F -> list F -> list (F * F).

(** The start point of the line leaving the charge at [xy] under angle [i]. *)
Definition seed (start_radius : F) (xy : F * F) (i : F) : F * F :=
  let dx := start_radius * fcos i in
  let dy := start_radius * fsin i in
  (xy.1 + dx, xy.2 + dy).

(** The inner loop [for i in angles]. *)
Definition lines_of_charge (start_radius : F) (angles lambdas : list F)
    (c : Charges F) (xy : F * F) : list (list (F * F)) :=
  (fun i => odeint (fun p _ => scaled_electric_field p c)
                   (seed start_radius xy i) lambdas) <$> angles.

(** [np.linspace(ang_scale, 2*np.pi, n) + np.pi/n] *)
Definition start_angles (nr_of_fieldlines : Z) : result (list F) :=
  if (nr_of_fieldlines =? 0)%Z then Raise ZeroDivisionError
  else
    let n : F := of_Z nr_of_fieldlines in
    let ang_scale : F := (of_Z 2 * fpi) / n in
    a ← np_linspace ang_scale (of_Z 2 * fpi) nr_of_fieldlines;
    Ok ((fun v => v + fpi / n) <$> (a : list F)).

Definition field_lines (nr_of_fieldlines : Z) (start_radius lambda_max : F)
    (points : Z) (c : Charges F) : result (list (list (F * F))) :=
  angles ← start_angles nr_of_fieldlines;
  lambdas ← np_linspace fzero lambda_max points;
  charges ← get_charges c;
  Ok (foldl (fun fieldlines '(q, xy) =>
               if fltb fzero q
               then fieldlines ++ lines_of_charge start_radius angles lambdas c xy
               else fieldlines)
            [] charges).

(** The charges lines start from: those with [q > 0], in index order. *)
Definition positive_charges (c : Charges F) : list (F * (F * F)) :=
  List.filter (fun ch => fltb fzero ch.1) (zip (_q c) (_pos c)).

End Tracer.

(** ** Arrays as objects

    [self._pos] is a reference to an array.  [np.vstack] and [np.delete]
    build a new array and rebind the attribute; [self._pos[k, :] = xy]
    writes into the array the attribute refers to; [p[k, :]] is a view of
    row [k] of the array [p], not a copy.  The [_q] array is never written
    in place and [enumerate] hands out its elements as scalars, so it is
    kept by value. *)

(** The position arrays allocated so far, by address. *)
Abbreviation heap F := (list (list (F * F))).

Section Store.
Context {F : Type} `{Numeric F}.

Record object : Type := mkObject {
  self_q : list F;
  self_pos : nat
}.

(** A row view [p[k, :]]: the array it looks into and the row. *)
Record view : Type := mkView {
  view_base : nat;
  view_row : nat
}.

Definition load (h : heap F) (a : nat) : list (F * F) := default [] (h !! a).

Definition alloc (arr : list (F * F)) (h : heap F) : heap F * nat :=
  (h ++ [arr], length h).

Definition init_st : heap F * object := ([[]], mkObject [] 0).

Definition add_charge_st (q : F) (xy : F * F) (s : heap F * object)
  : heap F * object :=
  let '(h, o) := s in
  let '(h', a) := alloc (np_stack (load h (self_pos o)) xy) h in
  (h', mkObject (np_stack (self_q o) q) a).

Definition delete_charge_st (k : Z) (s : heap F * object)
  : result (heap F * object) :=
  let '(h, o) := s in
  if ((0 <=? k) && (k <? Z.of_nat (length (self_q o))))%Z then
    q' ← np_delete (self_q o) k;
    pos' ← np_delete (load h (self_pos o)) k;
    let '(h', a) := alloc pos' h in
    Ok (h', mkObject q' a)
  else Ok s.

Definition set_position_st (k : Z) (xy : F * F) (s : heap F * object)
  : result (heap F * object) :=
  let '(h, o) := s in
  if ((0 <=? k) && (k <? Z.of_nat (length (self_q o))))%Z then
    pos' ← np_setitem (load h (self_pos o)) k xy;
    Ok (<[self_pos o := pos']> h, o)
  else Ok s.

Definition get_charges_st (s : heap F * object) : result (list (F * view)) :=
  let '(h, o) := s in
  let p := self_pos o in
  result_mapM (fun '(k, q) =>
                 i ← np_index (length (load h p)) (Z.of_nat k);
                 Ok (q, mkView p i))
              (enumerate (self_q o)).

(** What a view shows in a given heap. *)
Definition read_view (h : heap F) (v : view) : option (F * F) :=
  arr ← h !! view_base v; arr !! view_row v.

(** What a list returned by [get_charges] shows in a given heap. *)
Definition read_snapshot (h : heap F) (snap : list (F * view))
  : list (F * option (F * F)) :=
  (fun e => (e.1, read_view h e.2)) <$> snap.

(** The charge collection an object state stands for. *)
Definition abstract (s : heap F * object) : Charges F :=
  mkCharges (self_q s.2) (load s.1 (self_pos s.2)).

Definition wf_st (s : heap F * object) : Prop :=
  self_pos s.2 < length s.1 /\ wf (abstract s).

(** The (magnitude, position) pairs of a collection. *)
Definition pairs (c : Charges F) : list (F * option (F * F)) :=
  (fun e => (e.1, Some e.2)) <$> zip (_q c) (_pos c).

(** The calls that change the collection, and a sequence of them. *)
Inductive mutation : Type :=
| AddCharge (q : F) (xy : F * F)
| DeleteCharge (k : Z)
| SetPosition (k : Z) (xy : F * F).

Definition mutate (m : mutation) (s : heap F * object)
  : result (heap F * object) :=
  match m with
  | AddCharge q xy => Ok (add_charge_st q xy s)
  | DeleteCharge k => delete_charge_st k s
  | SetPosition k xy => set_position_st k xy s
  end.

Fixpoint mutate_all (ms : list mutation) (s : heap F * object)
  : result (heap F * object) :=
  match ms with
  | [] => Ok s
  | m :: ms' => s' ← mutate m s; mutate_all ms' s'
  end.

(** The calls that bind [self._pos] to a new array, on a collection of
    [n] charges: [add_charge], and [delete_charge] with an index in
    range. *)
Definition rebinds (n : nat) (m : mutation) : bool :=
  match m with
  | AddCharge _ _ => true
  | DeleteCharge k => ((0 <=? k) && (k <? Z.of_nat n))%Z
  | SetPosition _ _ => false
  end.

(** The calls made before the first one that rebinds [self._pos]. *)
Fixpoint in_place_prefix (n : nat) (ms : list mutation) : list mutation :=
  match ms with
  | [] => []
  | m :: ms' => if rebinds n m then [] else m :: in_place_prefix n ms'
  end.

End Store.

(** ** A solver for the examples *)

Section Euler.
Context {F : Type} `{Numeric F}.
Local Open Scope num_scope.

(** Explicit Euler steps along the sample points [ts], from [y] at [t]. *)
Fixpoint euler_from (f : F * F -> F -> F * F) (y : F * F) (t : F)
    (ts : list F) : list (F * F) :=
  match ts with
  | [] => []
  | t' :: ts' =>
      let h := t' - t in
      let d := f y t in
      let y' := (y.1 + h * d.1, y.2 + h * d.2) in
      y' :: euler_from f y' t' ts'
  end.

(** An instance of the [odeint] parameter: one row per sample point, the
    initial value in the first row. *)
Definition euler_odeint (f : F * F -> F -> F * F) (y0 : F * F)
    (ts : list F) : list (F * F) :=
  match ts with
  | [] => []
  | t :: ts' => y0 :: euler_from f y0 t ts'
  end.
End Euler.

(** ** Distances and norms *)

Section Geometry.
Context {F : Type} `{Numeric F}.
Local Open Scope num_scope.

(** The squared distance [get_closest] and [scaled_electric_field] compute
    for one charge position [a]. *)
Definition sq_distance (xy a : F * F) : F :=
  (xy.1 - a.1) * (xy.1 - a.1) + (xy.2 - a.2) * (xy.2 - a.2).

(** Euclidean distance and Euclidean norm. *)
Definition distance (xy a : F * F) : F := fsqrt (sq_distance xy a).

Definition norm (v : F * F) : F := fsqrt (v.1 * v.1 + v.2 * v.2).

(** [i] is the lowest index at which the list [d] takes its least value. *)
Definition first_min (lt le : F -> F -> Prop) (d : list F) (i : nat) : Prop :=
  exists x, d !! i = Some x /\
    (forall j y, d !! j = Some y -> le x y) /\
    (forall j y, j < i -> d !! j = Some y -> lt x y).

(** [i] is the lowest index among the charges nearest to [xy]. *)
Definition nearest_index (lt le : F -> F -> Prop) (xy : F * F)
    (c : Charges F) (i : nat) : Prop :=
  exists a, _pos c !! i = Some a /\
    (forall j b, _pos c !! j = Some b -> le (distance xy a) (distance xy b)) /\
    (forall j b, j < i -> _pos c !! j = Some b ->
       lt (distance xy a) (distance xy b)).
End Geometry.

(** ** Example configurations *)

(** The four charges the window starts with. *)
Definition quadrupole {F} `{Numeric F} : Charges F :=
  add_charge (of_Z (-1)) (fzero, of_Z (-1))
    (add_charge (of_Z (-1)) (fzero, of_Z 1)
       (add_charge (of_Z 1) (of_Z (-1), fzero)
          (add_charge (of_Z 1) (of_Z 1, fzero) init))).

(** A single unit charge at the origin. *)
Definition unit_charge {F} `{Numeric F} : Charges F :=
  add_charge (of_Z 1) (fzero, fzero) init.

(** An object holding one unit charge at (1, 0). *)
Definition one_charge_st {F} `{Numeric F} : heap F * @object F :=
  add_charge_st (of_Z 1) (of_Z 1, fzero) init_st.

(** ** The field, charge by charge *)

Section FieldTerms.
Context {F : Type} `{Numeric F}.
Local Open Scope num_scope.

(** The entries of the array [e] of [scaled_electric_field] that belong to
    one charge [q] at [a]: [emag * eunit], per coordinate. *)
Definition term_x (xy : F * F) (q : F) (a : F * F) : F :=
  (q / sq_distance xy a) * ((xy.1 - a.1) / fsqrt (sq_distance xy a)).

Definition term_y (xy : F * F) (q : F) (a : F * F) : F :=
  (q / sq_distance xy a) * ((xy.2 - a.2) / fsqrt (sq_distance xy a)).

(** The last two lines of [scaled_electric_field]. *)
Definition rescale (etot : F * F) : F * F :=
  let s := etot.1 * etot.1 + etot.2 * etot.2 in
  (etot.1 / (s + flit_1em4), etot.2 / (s + flit_1em4)).
End FieldTerms.

(** ** The window: [MyMplWidget]

    The handlers of the window are callbacks: when one raises, the
    attributes it has assigned so far stay assigned.  They are modelled as
    functions from the state of the widget to the state it is left in and
    the exception raised, if any.  Of the drawing only the artists put on
    the axes are kept; what the canvas does when it is asked to render
    them is a parameter of each handler. *)

Inductive py_exn : Type :=
| EngineError (e : exn)
| TypeError
| OverflowError
| UnboundLocalError
| BackendError (code : Z).

(** What the handlers need of Python numbers besides [Numeric]: unary
    minus, the literal [0.2], the NaN that [None] becomes when it is stored
    in a float64 array, and [round(x)] as [np.hstack] stores it.
    [round] gives a Python int, and [np.hstack] stores it in the float64
    array [self._q] only when it fits a 64-bit integer; a larger one makes
    [self._q] an array of Python objects, which the lists of [F] do not
    model.  [py_round] is [inl] there, like where [round] raises, and
    nothing is stated about that case. *)
Class PyFloat (F : Type) : Type := {
  fopp : F -> F;
  fnan : F;
  flit_0p2 : F;
  py_round : F -> py_exn + F
}.
#[global] Hint Mode PyFloat ! : typeclass_instances.

(** [round] of a finite binary64 number: to the nearest integer, ties to
    the even one. *)
Definition float_round_Z (x : float) : Z :=
  let (m, e) := FloatOps.Z.frexp (PrimFloat.abs x) in
  let M := Uint63.to_Z (normfr_mantissa m) in
  let sh := (e - 53)%Z in
  let n :=
    if (0 <=? sh)%Z then (M * 2 ^ sh)%Z
    else
      let q := (M / 2 ^ (- sh))%Z in
      let r := (M mod 2 ^ (- sh))%Z in
      let half := (2 ^ (- sh - 1))%Z in
      if (r <? half)%Z then q
      else if (half <? r)%Z then (q + 1)%Z
      else if Z.even q then q else (q + 1)%Z in
  if (x <? 0)%float then (- n)%Z else n.

#[global] Instance float_py : PyFloat float := {|
  fopp := PrimFloat.opp;
  fnan := nan;
  flit_0p2 := 0.2%float;
  py_round := fun x =>
    if PrimFloat.is_nan x then inl (EngineError ValueError)
    else if PrimFloat.is_infinity x then inl OverflowError
    else if (PrimFloat.abs x <? 0x1p52)%float
    then inr (of_Z (float_round_Z x))
    else if ((-0x1p63 <=? x) && (x <? 0x1p64))%float then inr x
    else inl TypeError
|}.

Section Statements.
Context {F : Type} `{Numeric F}.

(** [add_charge], statement by statement.  The window can call it with
    [xy = None]: [np.hstack] has rebound [self._q] when [np.vstack] raises
    [ValueError] on arrays of shapes (n, 2) and (1, 1). *)
Definition add_charge_run (q : F) (xy : option (F * F)) (c : Charges F)
  : Charges F * option exn :=
  let q' := np_stack (_q c) q in
  match xy with
  | Some p => (mkCharges q' (np_stack (_pos c) p), None)
  | None => (mkCharges q' (_pos c), Some ValueError)
  end.

(** [delete_charge], statement by statement. *)
Definition delete_charge_run (k : Z) (c : Charges F)
  : Charges F * option exn :=
  if ((0 <=? k) && (k <? Z.of_nat (length (_q c))))%Z then
    match np_delete (_q c) k with
    | Raise e => (c, Some e)
    | Ok q' =>
        match np_delete (_pos c) k with
        | Raise e => (mkCharges q' (_pos c), Some e)
        | Ok pos' => (mkCharges q' pos', None)
        end
    end
  else (c, None).

(** One magnitude more than positions: the state [add_charge] leaves when
    it raises. *)
Definition unbalanced (c : Charges F) : Prop :=
  length (_q c) = S (length (_pos c)).

(** [set_position], statement by statement. *)
Definition set_position_run (k : Z) (xy : F * F) (c : Charges F)
  : Charges F * option exn :=
  if ((0 <=? k) && (k <? Z.of_nat (length (_q c))))%Z then
    match np_setitem (_pos c) k xy with
    | Raise e => (c, Some e)
    | Ok pos' => (mkCharges (_q c) pos', None)
    end
  else (c, None).
End Statements.

Section Widget.
Context {F : Type} `{Numeric F} `{Trig F} `{PyFloat F}.
Variable odeint : (F * F -> F -> F * F) -> F * F -> list F -> list (F * F).
Local Open Scope num_scope.

Inductive colour : Type := Red | Blue.

(** What [ax.plot] puts on the axes: a black polyline, or a round marker
    of a colour and a size [ms]. *)
Inductive artist : Type :=
| Line (pts : list (F * F))
| Marker (xy : F * F) (c : colour) (ms : F).

(** [event.xdata], [event.ydata]: [None] outside the axes. *)
Record MouseEvent : Type := mkEvent {
  xdata : option F;
  ydata : option F
}.

(** The attributes the drawing sets. *)
Record plot_state : Type := mkPlot {
  field_lines_args : option (Z * F * F * Z);
  lines : list (list artist);
  points : list artist;
  ax : list artist
}.

(** What the calls that render raise, if anything, on the artists they
    find: [self.draw()], [self.ax.draw_artist(self.ax.patch)],
    [self.fig.canvas.update()] and [self.fig.canvas.flush_events()].
    They change no attribute of the widget.  ([flush_events] can let the
    event loop start the handler of the next event; it is the last
    statement of the handler that called it, so that handler runs on the
    state this one leaves.) *)
Record canvas : Type := mkCanvas {
  draw : plot_state -> option py_exn;
  draw_artist : plot_state -> option py_exn;
  canvas_update : plot_state -> option py_exn;
  flush_events : plot_state -> option py_exn
}.

(** A canvas on which no call raises. *)
Definition silent (g : canvas) : Prop :=
  forall ps, draw g ps = None /\ draw_artist g ps = None /\
             canvas_update g ps = None /\ flush_events g ps = None.

Definition quiet_canvas : canvas :=
  mkCanvas (fun _ => None) (fun _ => None) (fun _ => None) (fun _ => None).

(** A canvas on which [self.draw()] raises OverflowError, as it does on
    a marker too large to render. *)
Definition failing_canvas : canvas :=
  mkCanvas (fun _ => Some OverflowError) (fun _ => None) (fun _ => None)
           (fun _ => None).

Record MyMplWidget : Type := mkWidget {
  mouse_pressed_pos : option (F * F);
  closest_k : option nat;
  dragging : bool;
  qadd : F;
  charges : Charges F;
  plot : plot_state
}.

Definition with_charges (w : MyMplWidget) (c : Charges F) : MyMplWidget :=
  mkWidget (mouse_pressed_pos w) (closest_k w) (dragging w) (qadd w) c (plot w).

Definition with_plot (w : MyMplWidget) (p : plot_state) : MyMplWidget :=
  mkWidget (mouse_pressed_pos w) (closest_k w) (dragging w) (qadd w)
           (charges w) p.

(** The marker of one charge: red with [ms = 10*q] for [q > 0], blue
    with [ms = 10*-q] otherwise. *)
Definition marker_of (charge : F * (F * F)) : artist :=
  if fltb fzero charge.1
  then Marker charge.2 Red (of_Z 10 * charge.1)
  else Marker charge.2 Blue (of_Z 10 * fopp charge.1).

(** The inner loop [for charge in self.charges.get_charges()]: the axes
    and the variable [point] after it. *)
Definition plot_charges (chs : list (F * (F * F)))
    (st : list artist * option artist) : list artist * option artist :=
  foldl (fun st charge => (st.1 ++ [marker_of charge], Some (marker_of charge)))
        st chs.

(** The loop over the field lines; [point] is the local variable the
    inner loop assigns. *)
Fixpoint plot_lines (c : Charges F) (fls : list (list (F * F)))
    (ps : plot_state) (point : option artist)
  : plot_state * option py_exn :=
  match fls with
  | [] => (ps, None)
  | i :: fls' =>
      let ps1 := mkPlot (field_lines_args ps) (lines ps ++ [[Line i]])
                        (points ps) (ax ps ++ [Line i]) in
      match get_charges c with
      | Raise e => (ps1, Some (EngineError e))
      | Ok chs =>
          let st := plot_charges chs (ax ps1, point) in
          let ps2 := mkPlot (field_lines_args ps1) (lines ps1) (points ps1)
                            st.1 in
          match st.2 with
          | None => (ps2, Some UnboundLocalError)
          | Some pt =>
              plot_lines c fls'
                (mkPlot (field_lines_args ps2) (lines ps2)
                        (points ps2 ++ [pt]) (ax ps2))
                st.2
          end
      end
  end.

(** The last statement of [plot_fieldlines] is [self.draw()]. *)
Definition plot_fieldlines (g : canvas) (nr_of_fieldlines : Z)
    (start_radius lambda_max : F) (npoints : Z) (w : MyMplWidget)
  : MyMplWidget * option py_exn :=
  let ps0 := mkPlot (Some (nr_of_fieldlines, start_radius, lambda_max, npoints))
                    [] [] [] in
  match field_lines odeint nr_of_fieldlines start_radius lambda_max npoints
                    (charges w) with
  | Raise e => (with_plot w ps0, Some (EngineError e))
  | Ok fls =>
      let r := plot_lines (charges w) fls ps0 None in
      match r.2 with
      | Some e => (with_plot w r.1, Some e)
      | None => (with_plot w r.1, draw g r.1)
      end
  end.

(** [plot_fieldlines()] with its default arguments. *)
Definition plot_fieldlines_default (g : canvas) (w : MyMplWidget)
  : MyMplWidget * option py_exn :=
  plot_fieldlines g 32 flit_0p2 (of_Z 10) 801 w.

(** [drag_replot]: the patch of the axes is redrawn, the field lines are
    plotted again with 8 lines per charge, the canvas is updated and its
    events are flushed. *)
Definition drag_replot (g : canvas) (w : MyMplWidget)
  : MyMplWidget * option py_exn :=
  match draw_artist g (plot w) with
  | Some e => (w, Some e)
  | None =>
      let r := plot_fieldlines g 8 flit_0p2 (of_Z 10) 801 w in
      match r.2 with
      | Some e => r
      | None =>
          match canvas_update g (plot r.1) with
          | Some e => (r.1, Some e)
          | None => (r.1, flush_events g (plot r.1))
          end
      end
  end.

(** A coordinate as [self._pos[k, :] = xy] stores it. *)
Definition stored (x : option F) : F := default fnan x.

Definition on_mouse_move (g : canvas) (event : MouseEvent) (w : MyMplWidget)
  : MyMplWidget * option py_exn :=
  match mouse_pressed_pos w with
  | None => (w, None)
  | Some p =>
      match closest_k w with
      | None =>
          match xdata event with
          | None => (w, Some TypeError)
          | Some x =>
              (mkWidget (mouse_pressed_pos w) (closest_k w) (dragging w)
                        (x - p.1) (charges w) (plot w), None)
          end
      | Some k =>
          let w1 := mkWidget (mouse_pressed_pos w) (closest_k w) true
                             (qadd w) (charges w) (plot w) in
          let r := set_position_run (Z.of_nat k)
                     (stored (xdata event), stored (ydata event))
                     (charges w1) in
          match r.2 with
          | Some e => (with_charges w1 r.1, Some (EngineError e))
          | None => drag_replot g (with_charges w1 r.1)
          end
      end
  end.

Definition on_mouse_press (event : MouseEvent) (w : MyMplWidget)
  : MyMplWidget * option py_exn :=
  match xdata event, ydata event with
  | Some x, Some y =>
      let w1 := mkWidget (Some (x, y)) (closest_k w) (dragging w) (qadd w)
                         (charges w) (plot w) in
      match get_closest (x, y) flit_0p2 (charges w1) with
      | Raise e => (w1, Some (EngineError e))
      | Ok k =>
          (mkWidget (mouse_pressed_pos w1) k false (qadd w1) (charges w1)
                    (plot w1), None)
      end
  | _, _ => (w, None)
  end.

(** The end of [on_mouse_release]: replot, then reset the attributes. *)
Definition replot_and_reset (g : canvas) (w : MyMplWidget)
  : MyMplWidget * option py_exn :=
  let r := plot_fieldlines_default g w in
  match r.2 with
  | Some e => r
  | None =>
      (mkWidget None None (dragging r.1) fzero (charges r.1) (plot r.1), None)
  end.

Definition on_mouse_release (g : canvas) (event : MouseEvent)
    (w : MyMplWidget) : MyMplWidget * option py_exn :=
  match closest_k w with
  | None =>
      match py_round (qadd w) with
      | inl e => (w, Some e)
      | inr q =>
          let r := add_charge_run q (mouse_pressed_pos w) (charges w) in
          match r.2 with
          | Some e => (with_charges w r.1, Some (EngineError e))
          | None => replot_and_reset g (with_charges w r.1)
          end
      end
  | Some k =>
      if dragging w then replot_and_reset g w
      else
        let r := delete_charge_run (Z.of_nat k) (charges w) in
        match r.2 with
        | Some e => (with_charges w r.1, Some (EngineError e))
        | None => replot_and_reset g (with_charges w r.1)
        end
  end.

(** [MyMplWidget.__init__]: the attributes before the first plot, and the
    first plot. *)
Definition start_widget : MyMplWidget :=
  mkWidget None None false fzero quadrupole (mkPlot None [] [] []).

Definition widget_init (g : canvas) : MyMplWidget * option py_exn :=
  plot_fieldlines_default g start_widget.

(** A sequence of mouse moves, each with what the canvas does during it.
    The callback registry reports the exception a handler raises and goes
    on: the next event finds the state that handler left.  The result is
    the final state and the exceptions reported, in order. *)
Fixpoint mouse_moves (events : list (canvas * MouseEvent)) (w : MyMplWidget)
  : MyMplWidget * list py_exn :=
  match events with
  | [] => (w, [])
  | ge :: events' =>
      let r := on_mouse_move ge.1 ge.2 w in
      let r' := mouse_moves events' r.1 in
      (r'.1, option_list r.2 ++ r'.2)
  end.

End Widget.

(** A truncated-series instance of the [Trig] parameter on binary64, for
    the examples. *)
Definition series_trig : Trig float := {|
  fpi := 0x1.921fb54442d18p+1%float;
  fcos := fun x =>
    let y := (x * x)%float in
    (1 - y / 2 * (1 - y / 12 * (1 - y / 30 * (1 - y / 56))))%float;
  fsin := fun x =>
    let y := (x * x)%float in
    (x * (1 - y / 6 * (1 - y / 20 * (1 - y / 42 * (1 - y / 72)))))%float
|}.

(** The limits whose square is a finite binary64 number with room to
    spare: magnitude at most [2^511].  From about [1.34e154] on, Python's
    [limit**2] raises OverflowError for a float [limit], which
    [get_closest] does not model; the statements about binary64
    limits are made below that. *)
Definition limit_in_range (limit : float) : Prop :=
  PrimFloat.leb (PrimFloat.abs limit) 0x1p511 = true.

(** * Properties *)

(** ** The error monad and numpy indexing *)

Lemma bind_Ok {A B} (f : A -> result B) (a : A) : (Ok a ≫= f) = f a.
Proof. reflexivity. Qed.

Lemma np_index_in_range (n : nat) (k : Z) :
  (0 <= k < Z.of_nat n)%Z -> np_index n k = Ok (Z.to_nat k).
Proof.
  intros Hk. unfold np_index.
  replace ((k <? - Z.of_nat n)%Z) with false by (symmetry; apply Z.ltb_ge; lia).
  replace ((Z.of_nat n <=? k)%Z) with false by (symmetry; apply Z.leb_gt; lia).
  replace ((k <? 0)%Z) with false by (symmetry; apply Z.ltb_ge; lia).
  reflexivity.
Qed.

Lemma np_index_of_nat (n i : nat) :
  i < n -> np_index n (Z.of_nat i) = Ok i.
Proof.
  intros Hi. rewrite np_index_in_range by lia. by rewrite Nat2Z.id.
Qed.

Lemma np_getitem_lookup {A} (arr : list A) (i : nat) (x : A) :
  arr !! i = Some x -> np_getitem arr (Z.of_nat i) = Ok x.
Proof.
  intros Hx. unfold np_getitem.
  rewrite np_index_of_nat by eauto using lookup_lt_Some.
  cbn. by rewrite Hx.
Qed.

Lemma range_guard (n : nat) (k : Z) :
  ((0 <=? k) && (k <? Z.of_nat n))%Z = true <-> (0 <= k < Z.of_nat n)%Z.
Proof. rewrite andb_true_iff, Z.leb_le, Z.ltb_lt. tauto. Qed.

Lemma range_guard_false (n : nat) (k : Z) :
  ((0 <=? k) && (k <? Z.of_nat n))%Z = false <-> ~ (0 <= k < Z.of_nat n)%Z.
Proof. rewrite <- range_guard. destruct (_ && _)%Z; intuition congruence. Qed.

(** ** Editing the collection *)

Section ChargeSetFacts.
Context {F : Type} `{Numeric F}.
Implicit Types (c : Charges F) (k : Z) (xy : F * F) (q : F).

Lemma wf_init : wf (init (F := F)).
Proof. reflexivity. Qed.

Lemma wf_add_charge q xy c : wf c -> wf (add_charge q xy c).
Proof.
  unfold wf, add_charge, np_stack. cbn. rewrite !length_app. cbn. lia.
Qed.

Lemma size_add_charge q xy c : size (add_charge q xy c) = S (size c).
Proof.
  unfold size, add_charge, np_stack. cbn. rewrite length_app. cbn. lia.
Qed.

Lemma delete_charge_in_range k c :
  wf c -> (0 <= k < Z.of_nat (size c))%Z ->
  delete_charge k c =
    Ok (mkCharges (delete (Z.to_nat k) (_q c)) (delete (Z.to_nat k) (_pos c))).
Proof.
  intros Hwf Hk. unfold delete_charge, size in *.
  rewrite (proj2 (range_guard _ _)) by done.
  unfold np_delete. rewrite !np_index_in_range by (rewrite <- ?Hwf; lia).
  reflexivity.
Qed.

Lemma delete_charge_out_of_range k c :
  ~ (0 <= k < Z.of_nat (size c))%Z -> delete_charge k c = Ok c.
Proof.
  intros Hk. unfold delete_charge.
  by rewrite (proj2 (range_guard_false _ _)).
Qed.

Lemma set_position_in_range k xy c :
  wf c -> (0 <= k < Z.of_nat (size c))%Z ->
  set_position k xy c = Ok (mkCharges (_q c) (<[Z.to_nat k := xy]> (_pos c))).
Proof.
  intros Hwf Hk. unfold set_position, size in *.
  rewrite (proj2 (range_guard _ _)) by done.
  unfold np_setitem. rewrite np_index_in_range by (rewrite <- ?Hwf; lia).
  reflexivity.
Qed.

Lemma set_position_out_of_range k xy c :
  ~ (0 <= k < Z.of_nat (size c))%Z -> set_position k xy c = Ok c.
Proof.
  intros Hk. unfold set_position.
  by rewrite (proj2 (range_guard_false _ _)).
Qed.

(** The operations keep the two arrays at the same length. *)
Lemma wf_delete_charge k c c' :
  wf c -> delete_charge k c = Ok c' -> wf c'.
Proof.
  intros Hwf Hc'.
  destruct (decide (0 <= k < Z.of_nat (size c))%Z) as [Hk|Hk].
  - rewrite delete_charge_in_range in Hc' by done. injection Hc' as <-.
    unfold wf, size in *. cbn.
    rewrite !length_delete by (apply lookup_lt_is_Some; lia). lia.
  - rewrite delete_charge_out_of_range in Hc' by done. congruence.
Qed.

Lemma wf_set_position k xy c c' :
  wf c -> set_position k xy c = Ok c' -> wf c'.
Proof.
  intros Hwf Hc'.
  destruct (decide (0 <= k < Z.of_nat (size c))%Z) as [Hk|Hk].
  - rewrite set_position_in_range in Hc' by done. injection Hc' as <-.
    unfold wf in *. cbn. by rewrite length_insert.
  - rewrite set_position_out_of_range in Hc' by done. congruence.
Qed.

(** C6. [delete_charge k] on a collection of size [s]: for [0 <= k < s]
    it returns a collection of size [s - 1] in which the charges at
    indices below [k] keep their index and every charge formerly at an
    index [i > k] sits at [i - 1], so exactly charge [k] is gone; for every
    other [k] it returns the collection unchanged and does not raise. *)
Theorem delete_charge_shifts k c :
  wf c ->
  ((0 <= k < Z.of_nat (size c))%Z ->
     exists c', delete_charge k c = Ok c' /\ wf c' /\
       size c' = size c - 1 /\
       (forall i, i < Z.to_nat k ->
          _q c' !! i = _q c !! i /\ _pos c' !! i = _pos c !! i) /\
       (forall i, Z.to_nat k < i ->
          _q c' !! (i - 1) = _q c !! i /\ _pos c' !! (i - 1) = _pos c !! i)) /\
  (~ (0 <= k < Z.of_nat (size c))%Z -> delete_charge k c = Ok c).
Proof.
  intros Hwf. split; [|apply delete_charge_out_of_range].
  intros Hk. eexists. split; [by apply delete_charge_in_range|].
  unfold wf, size in *. cbn.
  assert (is_Some (_q c !! Z.to_nat k)) by (apply lookup_lt_is_Some; lia).
  assert (is_Some (_pos c !! Z.to_nat k)) by (apply lookup_lt_is_Some; lia).
  rewrite !length_delete by done.
  repeat split; try lia.
  - by apply list_lookup_delete_lt.
  - by apply list_lookup_delete_lt.
  - rewrite list_lookup_delete_ge by lia. f_equal. lia.
  - rewrite list_lookup_delete_ge by lia. f_equal. lia.
Qed.

(** C7. [set_position k xy] on a collection of size [s]: for [0 <= k < s]
    the magnitudes are untouched, position [k] becomes [xy] and every other
    position is untouched; for every other [k] the collection is returned
    unchanged. *)
Theorem set_position_frame k xy c :
  wf c ->
  ((0 <= k < Z.of_nat (size c))%Z ->
     exists c', set_position k xy c = Ok c' /\ wf c' /\
       _q c' = _q c /\
       _pos c' !! Z.to_nat k = Some xy /\
       (forall i, i ≠ Z.to_nat k -> _pos c' !! i = _pos c !! i)) /\
  (~ (0 <= k < Z.of_nat (size c))%Z -> set_position k xy c = Ok c).
Proof.
  intros Hwf. split; [|apply set_position_out_of_range].
  intros Hk. eexists. split; [by apply set_position_in_range|].
  unfold wf, size in *. cbn. rewrite length_insert.
  repeat split; try done.
  - apply list_lookup_insert_eq. lia.
  - intros i Hi. by apply list_lookup_insert_ne.
Qed.

(** C9. On a collection of size [s], for [0 <= k < s - 1]: deleting charge
    [k] and adding a charge with the same magnitude and position gives a
    collection of size [s] again in which that charge sits at index
    [s - 1], which is not [k]; index [k] now holds the charge that was at
    [k + 1]. *)
Theorem delete_then_add_moves_to_end k c q xy :
  wf c ->
  (0 <= k < Z.of_nat (size c) - 1)%Z ->
  _q c !! Z.to_nat k = Some q ->
  _pos c !! Z.to_nat k = Some xy ->
  exists c', delete_charge k c = Ok c' /\
    let c'' := add_charge q xy c' in
    size c'' = size c /\
    _q c'' !! (size c - 1) = Some q /\
    _pos c'' !! (size c - 1) = Some xy /\
    size c - 1 ≠ Z.to_nat k /\
    _q c'' !! Z.to_nat k = _q c !! S (Z.to_nat k) /\
    _pos c'' !! Z.to_nat k = _pos c !! S (Z.to_nat k).
Proof.
  intros Hwf Hk Hq Hxy. eexists.
  split; [apply delete_charge_in_range; [done | lia]|].
  unfold wf, size, add_charge, np_stack in *. cbn.
  assert (length (delete (Z.to_nat k) (_q c)) = length (_q c) - 1) as Hlq
    by (apply length_delete; eauto).
  assert (length (delete (Z.to_nat k) (_pos c)) = length (_q c) - 1) as Hlp
    by (rewrite Hwf; apply length_delete; eauto).
  rewrite length_app, Hlq. cbn.
  repeat split; try lia.
  - rewrite lookup_app_r by lia. by rewrite Hlq, Nat.sub_diag.
  - rewrite lookup_app_r by lia. by rewrite Hlp, Nat.sub_diag.
  - rewrite lookup_app_l by lia. by apply list_lookup_delete_ge.
  - rewrite lookup_app_l by lia. by apply list_lookup_delete_ge.
Qed.

End ChargeSetFacts.

(** ** The snapshot *)

Section SnapshotFacts.
Context {F : Type} `{Numeric F}.

Lemma result_mapM_rows {A} (p pre p' : list (F * F)) (q : list A) :
  p = pre ++ p' -> length q = length p' ->
  result_mapM (fun '(k, x) => row ← np_getitem p (Z.of_nat k); Ok (x, row))
              (imap (fun i => pair (length pre + i)) q)
  = Ok (zip q p').
Proof.
  intros ->. revert pre p'.
  induction q as [|x q IH]; intros pre [|y p'] Hlen; try discriminate.
  { reflexivity. }
  cbn [imap result_mapM].
  rewrite (np_getitem_lookup _ _ y)
    by (rewrite Nat.add_0_r; apply list_lookup_middle; done).
  rewrite bind_Ok.
  rewrite (imap_ext _ (fun i => pair (length (pre ++ [y]) + i)) q).
  2:{ intros i z _. cbn. rewrite length_app. cbn. f_equal. lia. }
  replace (pre ++ y :: p') with ((pre ++ [y]) ++ p') by (by rewrite <- app_assoc).
  rewrite IH by (cbn in Hlen; lia).
  reflexivity.
Qed.

(** On a well-formed collection [get_charges] does not raise and lists the
    (magnitude, position) pairs in index order. *)
Lemma get_charges_zip (c : Charges F) :
  wf c -> get_charges c = Ok (zip (_q c) (_pos c)).
Proof.
  intros Hwf. unfold get_charges, enumerate.
  apply (result_mapM_rows (_pos c) [] (_pos c) (_q c)); done.
Qed.

End SnapshotFacts.

(** ** [np.linspace] *)

Section LinspaceFacts.
Context {F : Type} `{Numeric F}.

Lemma np_linspace_length (start stop : F) (num : Z) :
  (0 <= num)%Z ->
  exists l, np_linspace start stop num = Ok l /\ length l = Z.to_nat num.
Proof.
  intros Hnum. unfold np_linspace.
  replace ((num <? 0)%Z) with false by (symmetry; apply Z.ltb_ge; lia).
  eexists. split; [reflexivity|].
  repeat (case_match; rewrite ?length_insert, ?length_fmap);
    apply length_seqZ.
Qed.


End LinspaceFacts.

(** ** Tracing *)

Section TracerFacts.
Context {F : Type} `{Numeric F} `{Trig F}.
Variable odeint : (F * F -> F -> F * F) -> F * F -> list F -> list (F * F).
Implicit Types (c : Charges F) (n points : Z).

Lemma start_angles_length n :
  (0 < n)%Z ->
  exists angles : list F,
    start_angles n = Ok angles /\ length angles = Z.to_nat n.
Proof.
  intros Hn. unfold start_angles.
  replace ((n =? 0)%Z) with false by (symmetry; apply Z.eqb_neq; lia).
  destruct (np_linspace_length (F := F)
              (fdiv (fmul (of_Z 2) fpi) (of_Z n)) (fmul (of_Z 2) fpi) n)
    as (a & -> & Ha); [lia|].
  eexists. split; [reflexivity|]. by rewrite length_fmap.
Qed.

Lemma start_angles_zero : start_angles (F := F) 0 = Raise ZeroDivisionError.
Proof. reflexivity. Qed.

(** [nr_of_fieldlines = 0] divides by zero. *)
Lemma field_lines_zero_raises sr lmax points c :
  field_lines odeint 0 sr lmax points c = Raise ZeroDivisionError.
Proof. reflexivity. Qed.

Lemma foldl_fieldlines (g : F * F -> list (list (F * F)))
    (charges : list (F * (F * F))) (acc : list (list (F * F))) :
  foldl (fun fieldlines '(q, xy) =>
           if fltb fzero q then fieldlines ++ g xy else fieldlines)
        acc charges
  = acc ++ mjoin ((fun ch => g ch.2)
                    <$> List.filter (fun ch => fltb fzero ch.1) charges).
Proof.
  revert acc. induction charges as [|[q xy] charges IH]; intros acc; cbn.
  { by rewrite app_nil_r. }
  destruct (fltb fzero q); cbn; rewrite IH; [|done].
  by rewrite app_assoc.
Qed.

(** The list [field_lines] returns: the groups of the positive charges, one
    after the other. *)
Lemma field_lines_groups n sr lmax points c :
  (0 < n)%Z -> (0 <= points)%Z -> wf c ->
  exists angles lambdas,
    start_angles n = Ok angles /\ length angles = Z.to_nat n /\
    np_linspace fzero lmax points = Ok lambdas /\
    length lambdas = Z.to_nat points /\
    field_lines odeint n sr lmax points c
    = Ok (mjoin ((fun ch => lines_of_charge odeint sr angles lambdas c ch.2)
                   <$> positive_charges c)).
Proof.
  intros Hn Hp Hwf.
  destruct (start_angles_length n Hn) as (angles & Ha & Hla).
  destruct (np_linspace_length fzero lmax points Hp) as (lambdas & Hl & Hll).
  exists angles, lambdas. repeat split; try done.
  unfold field_lines. rewrite Ha, Hl, (get_charges_zip c Hwf). cbn.
  by rewrite foldl_fieldlines.
Qed.

Lemma length_lines_of_charge sr angles lambdas c xy :
  length (lines_of_charge odeint sr angles lambdas c xy) = length angles.
Proof. unfold lines_of_charge. apply length_fmap. Qed.

Lemma groups_same_length sr angles lambdas c (chs : list (F * (F * F))) :
  Forall (fun g : list (list (F * F)) => length g = length angles)
         ((fun ch => lines_of_charge odeint sr angles lambdas c ch.2) <$> chs).
Proof.
  apply Forall_fmap, Forall_forall. intros ch _. cbn.
  apply length_lines_of_charge.
Qed.

(** C1. With [nr_of_fieldlines = n > 0], [field_lines] returns, in this
    order, the [n] lines of the first charge with [q > 0], then the [n]
    lines of the next such charge, and so on, in index order: [n] times the
    number of charges with [q > 0] lines in all, and none for a charge with
    [q <= 0]. *)
Theorem field_lines_count n sr lmax points c :
  (0 < n)%Z -> (1 <= points)%Z -> wf c ->
  exists angles lambdas ls,
    start_angles n = Ok angles /\
    np_linspace fzero lmax points = Ok lambdas /\
    field_lines odeint n sr lmax points c = Ok ls /\
    ls = mjoin ((fun ch => lines_of_charge odeint sr angles lambdas c ch.2)
                  <$> positive_charges c) /\
    (forall ch, length (lines_of_charge odeint sr angles lambdas c ch)
                = Z.to_nat n) /\
    length ls = Z.to_nat n * length (positive_charges c).
Proof.
  intros Hn Hp Hwf.
  destruct (field_lines_groups n sr lmax points c Hn ltac:(lia) Hwf)
    as (angles & lambdas & Ha & Hla & Hl & Hll & Hfl).
  exists angles, lambdas. eexists. repeat split; try done.
  - intros ch. by rewrite length_lines_of_charge.
  - rewrite length_join.
    rewrite (sum_list_fmap_same (Z.to_nat n)), length_fmap by
      (rewrite <- Hla; apply groups_same_length).
    lia.
Qed.

Section OdeintContract.
(** What the documentation of [odeint] promises for a non-empty [t]: an
    array with one row per element of [t], the initial value [y0] in the
    first row. *)
Hypothesis odeint_length : forall f y0 ts,
  ts ≠ [] -> length (odeint f y0 ts) = length ts.
Hypothesis odeint_first : forall f y0 ts,
  ts ≠ [] -> head (odeint f y0 ts) = Some y0.

(** C4. With [points >= 1], every line [field_lines] returns has exactly
    [points] points, and the line at index [k] starts at
    [xy + start_radius * (cos θ, sin θ)], where [xy] is the position of the
    positive charge number [k / n] and [θ] the start angle number
    [k mod n]; the start angles are those of
    [np.linspace(2*pi/n, 2*pi, n) + pi/n]. *)
Theorem field_lines_points_and_seed n sr lmax points c :
  (0 < n)%Z -> (1 <= points)%Z -> wf c ->
  exists a angles ls,
    np_linspace (fdiv (fmul (of_Z 2) fpi) (of_Z n)) (fmul (of_Z 2) fpi) n
    = Ok a /\
    angles = (fun v => fadd v (fdiv fpi (of_Z n))) <$> a /\
    start_angles n = Ok angles /\
    field_lines odeint n sr lmax points c = Ok ls /\
    length ls = Z.to_nat n * length (positive_charges c) /\
    forall k line, ls !! k = Some line ->
      length line = Z.to_nat points /\
      exists q x y θ,
        positive_charges c !! (k / Z.to_nat n) = Some (q, (x, y)) /\
        angles !! (k mod Z.to_nat n) = Some θ /\
        head line = Some (fadd x (fmul sr (fcos θ)),
                          fadd y (fmul sr (fsin θ))).
Proof.
  intros Hn Hp Hwf.
  destruct (field_lines_groups n sr lmax points c Hn ltac:(lia) Hwf)
    as (angles & lambdas & Ha & Hla & Hl & Hll & Hfl).
  assert (lambdas ≠ []) as Hne by (intros ->; cbn in Hll; lia).
  assert (exists a,
            np_linspace (fdiv (fmul (of_Z 2) fpi) (of_Z n))
                        (fmul (of_Z 2) fpi) n = Ok a /\
            angles = (fun v => fadd v (fdiv fpi (of_Z n))) <$> a)
    as (a & Hlin & Hang).
  { pose proof Ha as Ha'. unfold start_angles in Ha'.
    replace ((n =? 0)%Z) with false in Ha' by (symmetry; apply Z.eqb_neq; lia).
    destruct (np_linspace _ _ n) as [a|e]; cbn in Ha'; [|done].
    injection Ha' as <-. by exists a. }
  exists a, angles. eexists. split; [done|]. split; [done|].
  split; [done|]. split; [done|].
  pose proof (groups_same_length sr angles lambdas c (positive_charges c))
    as Hsame.
  split.
  { rewrite length_join, (sum_list_fmap_same (length angles)), length_fmap
      by done. lia. }
  intros k line Hk.
  apply (join_lookup_Some_same_length (length angles)) in Hk; [|done].
  destruct Hk as (j & g & i & Hg & Hi & ->).
  rewrite list_lookup_fmap in Hg.
  destruct (positive_charges c !! j) as [ch|] eqn:Hch; [|discriminate].
  cbn in Hg. injection Hg as <-.
  unfold lines_of_charge in Hi. rewrite list_lookup_fmap in Hi.
  destruct (angles !! i) as [θ|] eqn:Hθ; [|discriminate].
  cbn in Hi. injection Hi as <-.
  assert (i < length angles) by eauto using lookup_lt_Some.
  split; [rewrite odeint_length by done; lia|].
  destruct ch as [q [x y]]. exists q, x, y, θ. rewrite <- Hla.
  rewrite Nat.div_add_l, Nat.div_small, Nat.add_0_r by lia.
  rewrite Nat.add_comm, Nat.Div0.mod_add, Nat.mod_small by lia.
  repeat split; try done. by rewrite odeint_first.
Qed.
End OdeintContract.

End TracerFacts.

(** ** The nearest charge *)

(** C5. The operations of the engine are meant never to raise, and the
    docstring of [get_closest] promises [None] when no charge is within the
    limit; on a collection without charges [get_closest] raises
    [ValueError] (from [np.argmin] of an empty array), whatever the point
    and the limit. *)
Theorem get_closest_empty_raises {F : Type} `{Numeric F}
    (xy : F * F) (limit : F) :
  get_closest xy limit init = Raise ValueError.
Proof. reflexivity. Qed.

Section NearestFacts.
Local Open Scope R_scope.
Implicit Types (c : Charges R) (p a b : R * R) (d : list R).

Lemma fleb_R (x y : R) : fleb x y = true <-> x <= y.
Proof. cbn. destruct (Rle_dec x y); intuition congruence. Qed.

Lemma fltb_R (x y : R) : fltb x y = true <-> x < y.
Proof. cbn. destruct (Rlt_dec x y); intuition congruence. Qed.

Lemma first_min_singleton (x : R) : first_min Rlt Rle [x] 0.
Proof.
  exists x. repeat split; [|intros; lia].
  intros [|j] y Hy; cbn in Hy; [injection Hy as <-; lra | discriminate].
Qed.

Lemma first_min_keep d (mi : nat) (mp x : R) :
  first_min Rlt Rle d mi -> d !! mi = Some mp -> mp <= x ->
  first_min Rlt Rle (d ++ [x]) mi.
Proof.
  intros (x0 & Hx0 & Hle & Hlt) Hmp Hx.
  assert (x0 = mp) as -> by congruence.
  exists mp. split; [by apply lookup_app_l_Some|]. split.
  - intros j y [Hy|[_ Hy]]%lookup_app_Some; [eauto|].
    destruct (j - length d)%nat; cbn in Hy; [|discriminate].
    by injection Hy as <-.
  - intros j y Hj [Hy|[Hge _]]%lookup_app_Some; [eauto|].
    apply lookup_lt_Some in Hmp. lia.
Qed.

Lemma first_min_replace d (mi : nat) (mp x : R) :
  first_min Rlt Rle d mi -> d !! mi = Some mp -> x < mp ->
  first_min Rlt Rle (d ++ [x]) (length d).
Proof.
  intros (x0 & Hx0 & Hle & Hlt) Hmp Hx.
  assert (x0 = mp) as -> by congruence.
  exists x. split; [by apply list_lookup_middle|]. split.
  - intros j y [Hy|[_ Hy]]%lookup_app_Some.
    + specialize (Hle j y Hy). lra.
    + destruct (j - length d)%nat; cbn in Hy; [|discriminate].
      injection Hy as <-. lra.
  - intros j y Hj [Hy|[Hge _]]%lookup_app_Some; [|lia].
    specialize (Hle j y Hy). lra.
Qed.

(** The scan returns the lowest index of the least element. *)
Lemma argmin_from_first_min (l pre : list R) (mp : R) (mi : nat) :
  first_min Rlt Rle pre mi -> pre !! mi = Some mp ->
  first_min Rlt Rle (pre ++ l) (argmin_from mp mi (length pre) l).
Proof.
  revert pre mp mi. induction l as [|x l IH]; intros pre mp mi Hmin Hmp.
  { by rewrite app_nil_r. }
  cbn [argmin_from].
  replace (pre ++ x :: l) with ((pre ++ [x]) ++ l) by (by rewrite <- app_assoc).
  replace (S (length pre)) with (length (pre ++ [x]))
    by (rewrite length_app; cbn; lia).
  destruct (fleb mp x) eqn:Hle; cbn [negb].
  - apply fleb_R in Hle. apply IH.
    + by apply (first_min_keep _ _ mp).
    + by apply lookup_app_l_Some.
  - assert (x < mp).
    { destruct (Rlt_dec x mp); [done|].
      assert (fleb mp x = true) by (apply fleb_R; lra). congruence. }
    change (fisnan x) with false. cbn iota. apply IH.
    + by apply (first_min_replace _ mi mp).
    + by apply list_lookup_middle.
Qed.

Lemma np_argmin_first_min d :
  d ≠ [] -> exists i, np_argmin d = Ok i /\ first_min Rlt Rle d i.
Proof.
  destruct d as [|x l]; [done|]. intros _. eexists. split; [reflexivity|].
  change (fisnan x) with false. cbn iota.
  apply (argmin_from_first_min l [x] x 0); [apply first_min_singleton | done].
Qed.

Lemma sq_norms_displacements p c :
  sq_norms (displacements p c) = sq_distance p <$> _pos c.
Proof.
  unfold sq_norms, displacements. rewrite <- list_fmap_compose.
  by apply list_fmap_ext.
Qed.

Lemma sq_distance_nonneg p a : 0 <= sq_distance p a.
Proof.
  unfold sq_distance. cbn.
  pose proof (Rle_0_sqr (p.1 - a.1)). pose proof (Rle_0_sqr (p.2 - a.2)).
  unfold Rsqr in *. lra.
Qed.

Lemma distance_le p a b :
  sq_distance p a <= sq_distance p b -> distance p a <= distance p b.
Proof. intros. unfold distance. cbn. by apply sqrt_le_1_alt. Qed.

Lemma distance_lt p a b :
  sq_distance p a < sq_distance p b -> distance p a < distance p b.
Proof.
  intros. unfold distance. cbn. apply sqrt_lt_1_alt.
  split; [apply sq_distance_nonneg | done].
Qed.

(** Comparing the squared distance with [limit**2] compares the distance
    with [|limit|]. *)
Lemma sq_distance_lt_limit p a (r : R) :
  sq_distance p a < r * r <-> distance p a < Rabs r.
Proof.
  unfold distance. cbn [fsqrt R_numeric].
  rewrite <- (sqrt_Rsqr_abs r). unfold Rsqr.
  pose proof (sq_distance_nonneg p a). split.
  - intros. apply sqrt_lt_1_alt. lra.
  - intros. apply sqrt_lt_0_alt. done.
Qed.

Lemma get_closest_exact p (r : R) c :
  _pos c ≠ [] ->
  exists i a, _pos c !! i = Some a /\ nearest_index Rlt Rle p c i /\
    get_closest p r c
    = Ok (if Rlt_dec (distance p a) (Rabs r) then Some i else None).
Proof.
  intros Hne.
  destruct (np_argmin_first_min (sq_norms (displacements p c)))
    as (i & Hi & x & Hx & Hle & Hlt).
  { rewrite sq_norms_displacements. by destruct (_pos c). }
  rewrite sq_norms_displacements in Hx, Hle, Hlt.
  rewrite list_lookup_fmap in Hx.
  destruct (_pos c !! i) as [a|] eqn:Ha; [|discriminate].
  cbn in Hx. injection Hx as <-.
  exists i, a. split; [done|]. split.
  - exists a. split; [done|]. split.
    + intros j b Hb. apply distance_le, (Hle j).
      by rewrite list_lookup_fmap, Hb.
    + intros j b Hj Hb. apply distance_lt, (Hlt j); [done|].
      by rewrite list_lookup_fmap, Hb.
  - unfold get_closest. rewrite Hi, bind_Ok.
    rewrite (np_getitem_lookup _ _ (sq_distance p a))
      by (by rewrite sq_norms_displacements, list_lookup_fmap, Ha).
    rewrite bind_Ok. cbn [fltb R_numeric fmul].
    destruct (Rlt_dec (sq_distance p a) (r * r)) as [Hd|Hd];
      destruct (Rlt_dec (distance p a) (Rabs r)) as [Hd'|Hd'];
      try done; apply sq_distance_lt_limit in Hd || apply sq_distance_lt_limit in Hd';
      done.
Qed.

(** C3 (amended). In exact arithmetic, on a collection with at least one
    charge, [get_closest p r] finds the lowest index [i] among the charges
    at least Euclidean distance from [p]; it returns [i] if that distance
    is strictly less than [|r|] (which is [r] for a radius [r >= 0]) and
    [None] otherwise. *)
Theorem get_closest_nearest p (r : R) c :
  _pos c ≠ [] ->
  exists i a, _pos c !! i = Some a /\ nearest_index Rlt Rle p c i /\
    (distance p a < Rabs r -> get_closest p r c = Ok (Some i)) /\
    (Rabs r <= distance p a -> get_closest p r c = Ok None) /\
    (0 <= r -> Rabs r = r).
Proof.
  intros Hne. destruct (get_closest_exact p r c Hne) as (i & a & Ha & Hi & Hg).
  exists i, a. repeat split; try done.
  - intros Hd. rewrite Hg. by destruct (Rlt_dec _ _).
  - intros Hd. rewrite Hg. destruct (Rlt_dec _ _); [lra | done].
  - intros Hr. by apply Rabs_pos_eq.
Qed.

End NearestFacts.

(** ** The scaled field *)

Section FieldFacts.
Local Open Scope R_scope.

(** The scaling [e / (|e|^2 + 0.0001)] maps every vector to one of norm at
    most 50. *)
Lemma scaling_bound (ex ey : R) :
  norm (ex / (ex * ex + ey * ey + 1 / 10000),
        ey / (ex * ex + ey * ey + 1 / 10000)) <= 50.
Proof.
  unfold norm. cbn.
  set (s := ex * ex + ey * ey).
  assert (0 <= s) as Hs.
  { pose proof (Rle_0_sqr ex). pose proof (Rle_0_sqr ey).
    unfold Rsqr in *. subst s. lra. }
  set (t := s + 1 / 10000).
  assert (0 < t) as Ht by (subst t; lra).
  set (u := / t).
  assert (t * u = 1) as Htu by (subst u; apply Rinv_r; lra).
  assert (0 <= u * u) as Hu by (pose proof (Rle_0_sqr u); by unfold Rsqr in *).
  assert (s <= 2500 * (t * t)) as Hst.
  { pose proof (Rle_0_sqr (s - 1 / 10000)). unfold Rsqr in *. subst t. lra. }
  assert (t * t * (u * u) = 1) as Httuu.
  { replace (t * t * (u * u)) with ((t * u) * (t * u)) by ring.
    rewrite Htu. ring. }
  replace (ex / t * (ex / t) + ey / t * (ey / t)) with (s * (u * u))
    by (subst s u; unfold Rdiv; ring).
  apply Rle_trans with (R_sqrt.sqrt (50 * 50)); [|rewrite sqrt_square; lra].
  apply sqrt_le_1_alt.
  pose proof (Rmult_le_compat_r (u * u) _ _ Hu Hst) as Hm.
  replace (2500 * (t * t) * (u * u)) with (2500 * (t * t * (u * u))) in Hm
    by ring.
  rewrite Httuu in Hm. lra.
Qed.

Lemma inv_sqrt_epsilon : 1 / fsqrt (flit_1em4 (F := R)) = 100.
Proof.
  cbn. replace (1 / 10000) with ((1 / 100) * (1 / 100)) by lra.
  rewrite sqrt_square by lra. lra.
Qed.

(** C2 (amended). In exact arithmetic, at every point that is not the
    position of a charge, the norm of [scaled_electric_field] is at most
    [1 / sqrt 0.0001 = 100] (it is at most 50).  The bound comes from the
    scaling alone, whatever the raw field is. *)
Theorem scaled_field_bounded_exact (c : Charges R) (p : R * R) :
  Forall (fun a => a ≠ p) (_pos c) ->
  norm (scaled_electric_field p c) <= 50 /\
  norm (scaled_electric_field p c) <= 1 / fsqrt (flit_1em4 (F := R)) /\
  1 / fsqrt (flit_1em4 (F := R)) = 100.
Proof.
  intros _.
  assert (norm (scaled_electric_field p c) <= 50) as Hb
    by (unfold scaled_electric_field; cbn zeta; apply scaling_bound).
  rewrite inv_sqrt_epsilon. repeat split; [done | lra].
Qed.

(** C10. Without charges [scaled_electric_field] is the zero vector at
    every point: [(+0.0, +0.0)] in binary64, and [(0, 0)] in exact
    arithmetic. *)
Theorem field_of_no_charges :
  (forall p : float * float,
     scaled_electric_field p init = (0%float, 0%float)) /\
  (forall p : R * R, scaled_electric_field p init = (0, 0)).
Proof.
  split; intros p.
  - vm_compute. reflexivity.
  - unfold scaled_electric_field. cbn. by rewrite Rdiv_0_l.
Qed.

End FieldFacts.

(** ** Snapshots and later writes *)

Section StoreFacts.
Context {F : Type} `{Numeric F}.
Implicit Types (h : heap F) (o : @object F) (s : heap F * @object F).
Implicit Types (snap : list (F * view)) (arr : list (F * F)).

Lemma load_lookup h a arr : h !! a = Some arr -> load h a = arr.
Proof. unfold load. by intros ->. Qed.

Lemma lookup_load h a : a < length h -> h !! a = Some (load h a).
Proof.
  intros Ha. unfold load.
  by destruct (lookup_lt_is_Some_2 h a Ha) as [arr ->].
Qed.

Lemma load_alloc_new h arr : load (h ++ [arr]) (length h) = arr.
Proof. apply load_lookup, list_lookup_middle. done. Qed.

(** The object operations act on the collection the object stands for as
    the operations on collections do. *)
Lemma abstract_add_charge q xy s :
  abstract (add_charge_st q xy s) = add_charge q xy (abstract s).
Proof.
  destruct s as [h o]. unfold abstract, add_charge_st, alloc, add_charge. cbn.
  by rewrite load_alloc_new.
Qed.

Lemma abstract_delete_charge k s :
  match delete_charge_st k s with
  | Ok s' => delete_charge k (abstract s) = Ok (abstract s')
  | Raise e => delete_charge k (abstract s) = Raise e
  end.
Proof.
  destruct s as [h o]. unfold abstract, delete_charge_st, delete_charge. cbn.
  destruct (_ && _)%Z; [|done].
  destruct (np_delete (self_q o) k) as [q'|e]; cbn; [|done].
  destruct (np_delete (load h (self_pos o)) k) as [pos'|e]; cbn; [|done].
  unfold abstract. cbn. by rewrite load_alloc_new.
Qed.

Lemma abstract_set_position k xy s :
  self_pos s.2 < length s.1 ->
  match set_position_st k xy s with
  | Ok s' => set_position k xy (abstract s) = Ok (abstract s')
  | Raise e => set_position k xy (abstract s) = Raise e
  end.
Proof.
  destruct s as [h o]. cbn. intros Ha.
  unfold abstract, set_position_st, set_position. cbn.
  destruct (_ && _)%Z; [|done].
  destruct (np_setitem (load h (self_pos o)) k xy) as [pos'|e]; cbn; [|done].
  unfold abstract. cbn. f_equal. f_equal. symmetry.
  apply load_lookup. by apply list_lookup_insert_eq.
Qed.

Lemma result_mapM_imap {A B C} (f : C -> result B) (g : nat -> A -> B)
    (e : nat -> A -> C) (l : list A) :
  (forall i x, l !! i = Some x -> f (e i x) = Ok (g i x)) ->
  result_mapM f (imap e l) = Ok (imap g l).
Proof.
  revert e g. induction l as [|x l IH]; intros e g Hf; [done|].
  cbn [imap result_mapM].
  rewrite (Hf 0 x) by done. rewrite bind_Ok.
  rewrite (IH (e ∘ S) (g ∘ S)) by (intros i y Hy; apply (Hf (S i) y Hy)).
  reflexivity.
Qed.

(** The list [get_charges] builds: the magnitudes, each with a view of
    the row of the current position array. *)
Lemma get_charges_st_views s :
  wf_st s ->
  get_charges_st s
  = Ok (imap (fun k q => (q, mkView (self_pos s.2) k)) (self_q s.2)).
Proof.
  destruct s as [h o]. intros [Ha Hwf]. unfold wf, abstract in Hwf.
  cbn in *. unfold enumerate.
  apply result_mapM_imap. intros i q Hq. cbn.
  rewrite np_index_of_nat; [done|].
  rewrite <- Hwf. eauto using lookup_lt_Some.
Qed.

Lemma read_snapshot_views h a arr (qs : list F) :
  h !! a = Some arr -> length qs <= length arr ->
  read_snapshot h (imap (fun k q => (q, mkView a k)) qs)
  = (fun e => (e.1, Some e.2)) <$> zip qs arr.
Proof.
  intros Hh Hlen. apply list_eq. intros i. unfold read_snapshot.
  rewrite !list_lookup_fmap, list_lookup_imap, lookup_zip_with.
  destruct (qs !! i) as [q|] eqn:Hq; [|done]. cbn.
  assert (i < length arr) as Hi
    by (apply lookup_lt_Some in Hq; lia).
  destruct (lookup_lt_is_Some_2 arr i Hi) as [y Hy].
  rewrite Hy. cbn. unfold read_view. cbn. rewrite Hh. cbn. by rewrite Hy.
Qed.

(** Every state reached from [Charges()] is well formed. *)
Lemma wf_st_init : wf_st (init_st (F := F)).
Proof. split; [cbn; lia | reflexivity]. Qed.

Lemma wf_st_add_charge q xy s : wf_st s -> wf_st (add_charge_st q xy s).
Proof.
  intros [Ha Hwf]. split.
  - destruct s as [h o]. cbn. rewrite length_app. cbn. lia.
  - rewrite abstract_add_charge. by apply wf_add_charge.
Qed.

Lemma wf_st_delete_charge k s s' :
  wf_st s -> delete_charge_st k s = Ok s' -> wf_st s'.
Proof.
  intros [Ha Hwf] Hs'. split.
  - destruct s as [h o]. unfold delete_charge_st in Hs'. cbn in Ha.
    destruct (_ && _)%Z; [|by injection Hs' as <-].
    destruct (np_delete (self_q o) k) as [q'|e]; cbn in Hs'; [|done].
    destruct (np_delete (load h (self_pos o)) k) as [pos'|e]; cbn in Hs';
      [|done].
    injection Hs' as <-. cbn. rewrite length_app. cbn. lia.
  - pose proof (abstract_delete_charge k s) as Hsim. rewrite Hs' in Hsim.
    by apply (wf_delete_charge k (abstract s)).
Qed.

Lemma wf_st_set_position k xy s s' :
  wf_st s -> set_position_st k xy s = Ok s' -> wf_st s'.
Proof.
  intros [Ha Hwf] Hs'. split.
  - destruct s as [h o]. unfold set_position_st in Hs'. cbn in Ha.
    destruct (_ && _)%Z; [|by injection Hs' as <-].
    destruct (np_setitem (load h (self_pos o)) k xy) as [pos'|e];
      cbn in Hs'; [|done].
    injection Hs' as <-. cbn. by rewrite length_insert.
  - pose proof (abstract_set_position k xy s Ha) as Hsim. rewrite Hs' in Hsim.
    by apply (wf_set_position k xy (abstract s)).
Qed.

Lemma delete_charge_st_total k s :
  wf_st s -> exists s', delete_charge_st k s = Ok s'.
Proof.
  destruct s as [h o]. intros [Ha Hwf]. unfold wf, abstract in Hwf.
  cbn in Ha, Hwf. unfold delete_charge_st.
  destruct (_ && _)%Z eqn:Hk; [|eauto].
  apply range_guard in Hk. unfold np_delete.
  rewrite (np_index_in_range (length (self_q o)) k) by done.
  rewrite (np_index_in_range (length (load h (self_pos o))) k)
    by (rewrite <- Hwf; done).
  cbn. eauto.
Qed.

Lemma set_position_st_total k xy s :
  wf_st s -> exists s', set_position_st k xy s = Ok s'.
Proof.
  destruct s as [h o]. intros [Ha Hwf]. unfold wf, abstract in Hwf.
  cbn in Ha, Hwf. unfold set_position_st.
  destruct (_ && _)%Z eqn:Hk; [|eauto].
  apply range_guard in Hk. unfold np_setitem.
  rewrite (np_index_in_range (length (load h (self_pos o))) k)
    by (rewrite <- Hwf; done).
  cbn. eauto.
Qed.

Lemma mutate_wf_st (m : @mutation F) s s' :
  wf_st s -> mutate m s = Ok s' -> wf_st s'.
Proof.
  intros Hwf. destruct m as [q xy|k|k xy]; cbn.
  - intros [= <-]. by apply wf_st_add_charge.
  - by apply wf_st_delete_charge.
  - by apply wf_st_set_position.
Qed.

Lemma mutate_total (m : @mutation F) s :
  wf_st s -> exists s', mutate m s = Ok s'.
Proof.
  intros Hwf. destruct m as [q xy|k|k xy]; cbn.
  - eauto.
  - by apply delete_charge_st_total.
  - by apply set_position_st_total.
Qed.

Lemma mutate_all_total (ms : list (@mutation F)) s :
  wf_st s -> exists s', mutate_all ms s = Ok s'.
Proof.
  revert s. induction ms as [|m ms IH]; intros s Hwf; cbn; [eauto|].
  destruct (mutate_total m s Hwf) as [s1 Hs1]. rewrite Hs1, bind_Ok.
  apply IH. by apply (mutate_wf_st m s).
Qed.

(** An array that is no longer the one [self._pos] refers to is never
    written again. *)
Lemma mutate_frozen (m : @mutation F) s s' (a : nat) :
  wf_st s -> a < self_pos s.2 -> mutate m s = Ok s' ->
  s'.1 !! a = s.1 !! a /\ a < self_pos s'.2.
Proof.
  destruct s as [h o]. intros [Ha Hwf] Hlt. cbn in Ha, Hlt.
  destruct m as [q xy|k|k xy]; cbn [mutate].
  - intros [= <-]. cbn. split; [apply lookup_app_l; lia | lia].
  - unfold delete_charge_st. destruct (_ && _)%Z; [|by intros [= <-]].
    destruct (np_delete (self_q o) k) as [q'|e]; cbn; [|done].
    destruct (np_delete (load h (self_pos o)) k) as [pos'|e]; cbn; [|done].
    intros [= <-]. cbn. split; [apply lookup_app_l; lia | lia].
  - unfold set_position_st. destruct (_ && _)%Z; [|by intros [= <-]].
    destruct (np_setitem (load h (self_pos o)) k xy) as [pos'|e]; cbn;
      [|done].
    intros [= <-]. cbn. split; [apply list_lookup_insert_ne; lia | done].
Qed.

Lemma mutate_all_frozen (ms : list (@mutation F)) s s' (a : nat) :
  wf_st s -> a < self_pos s.2 -> mutate_all ms s = Ok s' ->
  s'.1 !! a = s.1 !! a.
Proof.
  revert s. induction ms as [|m ms IH]; intros s Hwf Hlt; cbn.
  { by intros [= <-]. }
  destruct (mutate m s) as [s1|e] eqn:Hs1; cbn; [|done]. intros Hs'.
  destruct (mutate_frozen m s s1 a Hwf Hlt Hs1) as [Heq Hlt1].
  rewrite <- Heq. apply IH; [by apply (mutate_wf_st m s) | done..].
Qed.

(** A call that does not rebind [self._pos] keeps the magnitudes and the
    array [self._pos] refers to. *)
Lemma mutate_in_place (m : @mutation F) s s' :
  rebinds (length (self_q s.2)) m = false -> mutate m s = Ok s' ->
  self_pos s'.2 = self_pos s.2 /\ self_q s'.2 = self_q s.2.
Proof.
  destruct s as [h o]. cbn [snd].
  destruct m as [q xy|k|k xy]; cbn [mutate rebinds]; [done| |].
  - intros Hk. unfold delete_charge_st. rewrite Hk. by intros [= <-].
  - intros _. unfold set_position_st. destruct (_ && _)%Z; [|by intros [= <-]].
    destruct (np_setitem (load h (self_pos o)) k xy) as [pos'|e]; cbn;
      [|done].
    by intros [= <-].
Qed.

(** A call that rebinds [self._pos] leaves the array it referred to as
    it is. *)
Lemma mutate_rebinds (m : @mutation F) s s' :
  wf_st s -> rebinds (length (self_q s.2)) m = true -> mutate m s = Ok s' ->
  s'.1 !! self_pos s.2 = s.1 !! self_pos s.2 /\
  self_pos s.2 < self_pos s'.2.
Proof.
  destruct s as [h o]. intros [Ha Hwf]. cbn in Ha. cbn [fst snd].
  destruct m as [q xy|k|k xy]; cbn [mutate rebinds]; [| |done].
  - intros _ [= <-]. cbn. split; [by apply lookup_app_l | done].
  - intros Hk. unfold delete_charge_st. rewrite Hk.
    destruct (np_delete (self_q o) k) as [q'|e]; cbn; [|done].
    destruct (np_delete (load h (self_pos o)) k) as [pos'|e]; cbn; [|done].
    intros [= <-]. cbn. split; [by apply lookup_app_l | done].
Qed.

(** After any sequence of calls, the array [self._pos] referred to at the
    start holds what the calls before the first rebinding wrote. *)
Lemma mutate_all_viewed (ms : list (@mutation F)) s s' :
  wf_st s -> mutate_all ms s = Ok s' ->
  exists s1,
    mutate_all (in_place_prefix (length (self_q s.2)) ms) s = Ok s1 /\
    wf_st s1 /\ self_q s1.2 = self_q s.2 /\ self_pos s1.2 = self_pos s.2 /\
    s'.1 !! self_pos s.2 = Some (load s1.1 (self_pos s.2)).
Proof.
  revert s. induction ms as [|m ms IH]; intros s Hwf; cbn [mutate_all].
  { intros [= <-]. exists s. split_and!; try done.
    apply lookup_load. by destruct Hwf. }
  destruct (mutate m s) as [s2|e] eqn:Hs2; cbn; [|done]. intros Hs'.
  pose proof (mutate_wf_st m s s2 Hwf Hs2) as Hwf2.
  destruct (rebinds (length (self_q s.2)) m) eqn:Hreb.
  - exists s. split_and!; try done.
    destruct (mutate_rebinds m s s2 Hwf Hreb Hs2) as [Heq Hlt].
    rewrite (mutate_all_frozen ms s2 s' _ Hwf2 Hlt Hs'), Heq.
    apply lookup_load. by destruct Hwf.
  - destruct (mutate_in_place m s s2 Hreb Hs2) as [Hpos Hq].
    destruct (IH s2 Hwf2 Hs') as (s1 & Hs1 & Hwf1 & Hq1 & Hpos1 & Hview).
    exists s1. cbn [mutate_all]. rewrite Hs2, bind_Ok.
    rewrite Hq in Hs1. rewrite Hpos in Hview, Hpos1. rewrite Hq in Hq1.
    split_and!; done.
Qed.

(** C8 (amended). On an object whose arrays have the same length,
    [get_charges] does not raise and returns the (magnitude, position)
    pairs of the collection in index order.  Its positions are views of
    the array [self._pos] refers to at the call.  After any sequence of
    later calls of [add_charge], [delete_charge] and [set_position] (none
    of them raises), the list returned earlier shows the collection as the
    calls before the first [add_charge] or in-range [delete_charge] of the
    sequence left it: the magnitudes it shows never change, a
    [set_position] made while [self._pos] is still the same array is seen
    through it, and nothing done from the first rebinding on is. *)
Theorem snapshot_views s :
  wf_st s ->
  exists snap, get_charges_st s = Ok snap /\
    read_snapshot s.1 snap = pairs (abstract s) /\
    forall ms : list mutation,
      exists s' s1,
        mutate_all ms s = Ok s' /\
        mutate_all (in_place_prefix (size (abstract s)) ms) s = Ok s1 /\
        read_snapshot s'.1 snap = pairs (abstract s1) /\
        _q (abstract s1) = _q (abstract s) /\
        (forall m ms', ms = m :: ms' ->
           rebinds (size (abstract s)) m = true ->
           read_snapshot s'.1 snap = pairs (abstract s)).
Proof.
  intros Hwf. eexists. split; [by apply get_charges_st_views|].
  assert (forall h' s1,
            wf_st s1 -> self_q s1.2 = self_q s.2 ->
            self_pos s1.2 = self_pos s.2 ->
            h' !! self_pos s.2 = Some (load s1.1 (self_pos s.2)) ->
            read_snapshot h'
              (imap (fun k q => (q, mkView (self_pos s.2) k)) (self_q s.2))
            = pairs (abstract s1)) as Hread.
  { intros h' s1 [_ Hwf1] Hq1 Hpos1 Hh'.
    unfold pairs, abstract, wf in *. cbn in *.
    rewrite Hq1, Hpos1 in *.
    apply read_snapshot_views; [done | lia]. }
  split.
  { apply Hread; try done. apply lookup_load. by destruct Hwf. }
  intros ms.
  destruct (mutate_all_total ms s Hwf) as [s' Hs'].
  destruct (mutate_all_viewed ms s s' Hwf Hs')
    as (s1 & Hs1 & Hwf1 & Hq1 & Hpos1 & Hview).
  exists s', s1. unfold size. cbn [abstract _q].
  split_and!; try done.
  - by apply Hread.
  - intros m ms' -> Hreb. cbn [in_place_prefix] in Hs1.
    rewrite Hreb in Hs1. injection Hs1 as <-. by apply Hread.
Qed.

End StoreFacts.

(** ** Evaluation in binary64 *)

Example linspace_five :
  np_linspace 0%float 10%float 5
  = Ok [0%float; 2.5%float; 5%float; 7.5%float; 10%float].
Proof. vm_compute. reflexivity. Qed.

Example linspace_single : np_linspace 0%float 0%float 1 = Ok [0%float].
Proof. vm_compute. reflexivity. Qed.

Example get_charges_quadrupole :
  get_charges (quadrupole (F := float))
  = Ok [(1, (1, 0)); (1, (-1, 0)); (-1, (0, 1)); (-1, (0, -1))]%float.
Proof. vm_compute. reflexivity. Qed.

Example delete_charge_quadrupole :
  delete_charge 1 (quadrupole (F := float))
  = Ok (mkCharges [1; -1; -1]%float [(1, 0); (0, 1); (0, -1)]%float).
Proof. vm_compute. reflexivity. Qed.

(** One charge at (1, 0): nothing within 0.05 of the origin. *)
Example get_closest_far :
  get_closest (0, 0)%float 0.05%float (add_charge 1%float (1, 0)%float init)
  = Ok None.
Proof. vm_compute. reflexivity. Qed.

Example get_closest_quadrupole :
  get_closest (0.9, 0)%float 0.2%float quadrupole = Ok (Some 0).
Proof. vm_compute. reflexivity. Qed.

Example field_unit_charge :
  scaled_electric_field (1, 0)%float unit_charge
  = (0.99990000999900008, 0)%float.
Proof. vm_compute. reflexivity. Qed.

(** At the position of a charge the field is not finite. *)
Example field_at_charge :
  scaled_electric_field (0, 0)%float unit_charge = (nan, nan).
Proof. vm_compute. reflexivity. Qed.

Example field_quadrupole_centre :
  scaled_electric_field (0, 0)%float quadrupole = (0, 0)%float.
Proof. vm_compute. reflexivity. Qed.

(** ** The claims on concrete configurations *)

Lemma euler_odeint_length {F : Type} `{Numeric F}
    (f : F * F -> F -> F * F) (y0 : F * F) (ts : list F) :
  ts ≠ [] -> length (euler_odeint f y0 ts) = length ts.
Proof.
  destruct ts as [|t ts]; [done|]. intros _. cbn. f_equal.
  revert y0 t. induction ts as [|t' ts IH]; intros y0 t; cbn; [done|].
  by rewrite IH.
Qed.

Lemma euler_odeint_first {F : Type} `{Numeric F}
    (f : F * F -> F -> F * F) (y0 : F * F) (ts : list F) :
  ts ≠ [] -> head (euler_odeint f y0 ts) = Some y0.
Proof. by destruct ts. Qed.

Lemma wf_quadrupole {F : Type} `{Numeric F} : wf (quadrupole (F := F)).
Proof. reflexivity. Qed.

Lemma wf_unit_charge {F : Type} `{Numeric F} : wf (unit_charge (F := F)).
Proof. reflexivity. Qed.

Lemma positive_charges_quadrupole :
  positive_charges (quadrupole (F := R)) = [(1, (1, 0)); (1, (-1, 0))]%R.
Proof.
  unfold positive_charges, quadrupole. cbn.
  repeat destruct (Rlt_dec _ _); try lra. reflexivity.
Qed.

Lemma positive_charges_unit_charge :
  positive_charges (unit_charge (F := R)) = [(1, (0, 0))]%R.
Proof.
  unfold positive_charges, unit_charge. cbn.
  destruct (Rlt_dec _ _); [reflexivity | lra].
Qed.

(** The four charges of the start window, 32 lines per charge: 64 lines. *)
Lemma field_lines_count_witness :
  exists ls,
    field_lines euler_odeint 32 (1 / 5)%R 10%R 801 (quadrupole (F := R))
    = Ok ls /\ length ls = 64.
Proof.
  destruct (field_lines_count euler_odeint 32 (1 / 5)%R 10%R 801 quadrupole)
    as (angles & lambdas & ls & _ & _ & Hfl & _ & _ & Hlen);
    [lia | lia | apply wf_quadrupole |].
  exists ls. split; [exact Hfl|].
  rewrite Hlen, positive_charges_quadrupole. reflexivity.
Defined.

(** A single charge [(+1, (0, 0))], 4 lines, [start_radius = 1],
    [lambda_max = 0], one point per line: 4 lines, each made of its
    start point only. *)
Lemma field_lines_points_and_seed_witness :
  exists angles ls,
    start_angles 4 = Ok angles /\
    field_lines euler_odeint 4 1%R 0%R 1 (unit_charge (F := R)) = Ok ls /\
    length ls = 4 /\
    forall k line, ls !! k = Some line ->
      exists θ, angles !! (k mod 4) = Some θ /\
                line = [(0 + 1 * cos θ, 0 + 1 * sin θ)%R].
Proof.
  destruct (field_lines_points_and_seed euler_odeint
              euler_odeint_length euler_odeint_first 4 1%R 0%R 1 unit_charge)
    as (a & angles & ls & _ & _ & Ha & Hfl & Hlen & Hlines);
    [lia | lia | apply wf_unit_charge |].
  rewrite positive_charges_unit_charge in Hlen, Hlines.
  exists angles, ls. split_and!; try done.
  intros k line Hk.
  destruct (Hlines k line Hk) as (Hl & q & x & y & θ & Hch & Hθ & Hhd).
  exists θ. split; [exact Hθ|].
  assert ((q, (x, y)) = (1, (0, 0))%R) as Hq.
  { destruct (k / Z.to_nat 4) as [|j]; cbn in Hch; [congruence|].
    by destruct j. }
  injection Hq as -> -> ->.
  destruct line as [|pt [|pt' line]]; cbn in Hl, Hhd; try discriminate.
  cbn in Hhd. congruence.
Defined.

Lemma delete_charge_shifts_witness :
  (exists c', delete_charge 1 (quadrupole (F := float)) = Ok c' /\
     size c' = 3 /\ _pos c' !! 1 = _pos (quadrupole (F := float)) !! 2) /\
  delete_charge 4 (quadrupole (F := float)) = Ok quadrupole.
Proof.
  destruct (delete_charge_shifts 1 (quadrupole (F := float)) wf_quadrupole)
    as [Hin _].
  destruct (delete_charge_shifts 4 (quadrupole (F := float)) wf_quadrupole)
    as [_ Hout].
  split.
  - destruct Hin as (c' & Hc' & _ & Hsize & _ & Hshift);
      [cbn; lia|].
    exists c'. repeat split; [exact Hc' | exact Hsize |].
    apply (Hshift 2). cbn. lia.
  - apply Hout. cbn. lia.
Defined.

Lemma set_position_frame_witness :
  (exists c', set_position 1 (5, 5)%float (quadrupole (F := float)) = Ok c' /\
     _q c' = _q (quadrupole (F := float)) /\
     _pos c' !! 1 = Some (5, 5)%float /\
     _pos c' !! 0 = _pos (quadrupole (F := float)) !! 0) /\
  set_position (-1) (5, 5)%float (quadrupole (F := float)) = Ok quadrupole.
Proof.
  destruct (set_position_frame 1 (5, 5)%float (quadrupole (F := float))
              wf_quadrupole) as [Hin _].
  destruct (set_position_frame (-1) (5, 5)%float (quadrupole (F := float))
              wf_quadrupole) as [_ Hout].
  split.
  - destruct Hin as (c' & Hc' & _ & Hq & Hk & Hother);
      [cbn; lia|].
    exists c'. repeat split; [exact Hc' | exact Hq | exact Hk |].
    apply (Hother 0). cbn. lia.
  - apply Hout. cbn. lia.
Defined.

Lemma delete_then_add_moves_to_end_witness :
  exists c', delete_charge 1 (quadrupole (F := float)) = Ok c' /\
    _q (add_charge 1%float (-1, 0)%float c') !! 3 = Some 1%float /\
    _pos (add_charge 1%float (-1, 0)%float c') !! 3 = Some (-1, 0)%float /\
    _pos (add_charge 1%float (-1, 0)%float c') !! 1
    = _pos (quadrupole (F := float)) !! 2.
Proof.
  destruct (delete_then_add_moves_to_end 1 (quadrupole (F := float))
              1%float (-1, 0)%float wf_quadrupole)
    as (c' & Hc' & _ & Hq & Hxy & _ & _ & Hnext);
    [cbn; lia | reflexivity | reflexivity |].
  exists c'. repeat split; [exact Hc' | exact Hq | exact Hxy | exact Hnext].
Defined.

Lemma get_closest_nearest_witness :
  exists i a, _pos (unit_charge (F := R)) !! i = Some a /\
    ((distance (1 / 20, 0) a < Rabs (1 / 10))%R ->
     get_closest (1 / 20, 0)%R (1 / 10)%R unit_charge = Ok (Some i)).
Proof.
  destruct (get_closest_nearest (1 / 20, 0)%R (1 / 10)%R unit_charge)
    as (i & a & Ha & _ & Hlt & _); [discriminate|].
  exists i, a. split; [exact Ha | exact Hlt].
Defined.

Lemma scaled_field_bounded_exact_witness :
  (norm (scaled_electric_field (1, 0)%R (unit_charge (F := R))) <= 50)%R.
Proof.
  destruct (scaled_field_bounded_exact unit_charge (1, 0)%R) as [Hb _];
    [|exact Hb].
  repeat constructor. cbn. intros [= Hx]. lra.
Defined.

Lemma snapshot_views_witness :
  exists snap s',
    get_charges_st (one_charge_st (F := float)) = Ok snap /\
    mutate_all [SetPosition 0 (5, 5)%float; AddCharge 2%float (0, 0)%float;
                SetPosition 0 (7, 7)%float] one_charge_st = Ok s' /\
    read_snapshot s'.1 snap = [(1%float, Some (5, 5)%float)].
Proof.
  destruct (snapshot_views (one_charge_st (F := float)))
    as (snap & Hsnap & _ & Hlater);
    [split; [vm_compute; lia | reflexivity]|].
  destruct (Hlater [SetPosition 0 (5, 5)%float; AddCharge 2%float (0, 0)%float;
                    SetPosition 0 (7, 7)%float])
    as (s' & s1 & Hs' & Hs1 & Hread & _).
  exists snap, s'. split; [exact Hsnap|]. split; [exact Hs'|].
  vm_compute in Hs1. injection Hs1 as <-. exact Hread.
Defined.

(** ** Where the specification and the program differ *)

(** C2, as stated, fails in binary64: the point [(1e-200, 0)] is not
    the position of the unit charge at the origin, its squared distance
    underflows to zero, and the scaled field there is [(nan, nan)], whose
    norm is not at most 100. *)
Lemma scaled_field_nan_near_charge :
  Forall (fun a => a ≠ (1e-200, 0)%float) (_pos (unit_charge (F := float))) /\
  scaled_electric_field (1e-200, 0)%float unit_charge = (nan, nan) /\
  fleb (norm (scaled_electric_field (1e-200, 0)%float unit_charge)) 100%float
  = false.
Proof.
  split; [|split; vm_compute; reflexivity].
  repeat constructor. intros Heq.
  apply (f_equal (fun v => PrimFloat.eqb v.1 0)) in Heq.
  vm_compute in Heq. discriminate.
Qed.

(** C3, as stated, fails for a negative limit: the unit charge at the
    origin is at distance 0 from the origin, which is not less than -1, and
    [get_closest] returns its index. *)
Lemma get_closest_negative_limit :
  get_closest (0, 0)%float (-1)%float unit_charge = Ok (Some 0) /\
  fltb (distance (0, 0)%float (0, 0)%float) (-1)%float = false.
Proof. split; vm_compute; reflexivity. Qed.

(** In binary64 two different small distances can have the same squared
    distance: the charge at index 1 is nearer to the origin than the one at
    index 0, and [get_closest] returns index 0. *)
Example get_closest_underflow :
  let c := add_charge 1%float (1e-200, 0)%float
             (add_charge 1%float (2e-200, 0)%float init) in
  get_closest (0, 0)%float 0.1%float c = Ok (Some 0) /\
  fltb (distance (0, 0)%float (1e-200, 0)%float)
       (distance (0, 0)%float (2e-200, 0)%float) = false /\
  PrimFloat.ltb 1e-200 2e-200 = true.
Proof. repeat split; vm_compute; reflexivity. Qed.

(** C8, as stated, fails for [set_position]: a list returned by
    [get_charges] shows the position (1, 0) before the call and (5, 5)
    after it. *)
Lemma snapshot_aliases_set_position :
  exists snap s',
    get_charges_st (one_charge_st (F := float)) = Ok snap /\
    set_position_st 0 (5, 5)%float one_charge_st = Ok s' /\
    read_snapshot one_charge_st.1 snap = [(1%float, Some (1, 0)%float)] /\
    read_snapshot s'.1 snap = [(1%float, Some (5, 5)%float)] /\
    read_snapshot s'.1 snap ≠ read_snapshot one_charge_st.1 snap.
Proof.
  eexists. eexists.
  split; [vm_compute; reflexivity|].
  split; [vm_compute; reflexivity|].
  split; [vm_compute; reflexivity|].
  split; [vm_compute; reflexivity|].
  vm_compute. intros Heq.
  apply (f_equal (fun l => match l with
                           | [(_, Some (x, _))] => PrimFloat.eqb x 5
                           | _ => false
                           end)) in Heq.
  vm_compute in Heq. discriminate.
Qed.

(** * Further properties *)

(** ** Editing the collection, continued *)

Section EditingFacts.
Context {F : Type} `{Numeric F}.
Implicit Types (c : Charges F) (k j : Z) (xy : F * F) (q : F).

(** X1. [add_charge] appends: the new charge gets index [size c], every
    charge already there keeps its index, and the two arrays stay of the
    same length. *)
Theorem add_charge_appends q xy c :
  wf c ->
  wf (add_charge q xy c) /\
  size (add_charge q xy c) = S (size c) /\
  _q (add_charge q xy c) !! size c = Some q /\
  _pos (add_charge q xy c) !! size c = Some xy /\
  (forall i, i < size c ->
     _q (add_charge q xy c) !! i = _q c !! i /\
     _pos (add_charge q xy c) !! i = _pos c !! i).
Proof.
  intros Hwf. split; [by apply wf_add_charge|].
  split; [apply size_add_charge|].
  unfold wf, size, add_charge, np_stack in *. cbn.
  split; [by apply list_lookup_middle|].
  split; [by apply list_lookup_middle|].
  intros i Hi. split; apply lookup_app_l; lia.
Qed.

(** X2. Deleting the charge just added gives back the collection. *)
Theorem delete_added_charge q xy c :
  wf c -> delete_charge (Z.of_nat (size c)) (add_charge q xy c) = Ok c.
Proof.
  intros Hwf.
  rewrite delete_charge_in_range
    by (by apply wf_add_charge || (rewrite size_add_charge; lia)).
  rewrite Nat2Z.id. destruct c as [qs ps]. unfold wf, size in *. cbn in *.
  unfold np_stack. rewrite (delete_middle qs [] q).
  rewrite Hwf, (delete_middle ps [] xy). by rewrite !app_nil_r.
Qed.

(** X3. Writing a position twice keeps the last one, and writes to different
    charges can be done in either order. *)
Theorem set_position_overwrite_commute k j xy xy' c :
  wf c ->
  (set_position k xy c ≫= set_position k xy') = set_position k xy' c /\
  (k ≠ j ->
   (set_position k xy c ≫= set_position j xy')
   = (set_position j xy' c ≫= set_position k xy)).
Proof.
  intros Hwf.
  assert (forall i a, (0 <= i < Z.of_nat (size c))%Z ->
            wf (mkCharges (_q c) (<[Z.to_nat i := a]> (_pos c))) /\
            size (mkCharges (_q c) (<[Z.to_nat i := a]> (_pos c))) = size c)
    as Hins.
  { intros i a Hi. unfold wf, size in *. cbn. by rewrite length_insert. }
  split.
  - destruct (decide (0 <= k < Z.of_nat (size c))%Z) as [Hk|Hk].
    + destruct (Hins k xy Hk) as [Hwf' Hsz].
      rewrite (set_position_in_range k xy c), bind_Ok by done.
      rewrite !set_position_in_range by (done || by rewrite Hsz).
      cbn. by rewrite list_insert_insert_eq.
    + by rewrite (set_position_out_of_range k xy c), bind_Ok.
  - intros Hne.
    destruct (decide (0 <= k < Z.of_nat (size c))%Z) as [Hk|Hk];
      destruct (decide (0 <= j < Z.of_nat (size c))%Z) as [Hj|Hj].
    + destruct (Hins k xy Hk) as [Hwfk Hszk].
      destruct (Hins j xy' Hj) as [Hwfj Hszj].
      rewrite (set_position_in_range k xy c), (set_position_in_range j xy' c),
        !bind_Ok by done.
      rewrite !set_position_in_range by (done || by rewrite ?Hszk, ?Hszj).
      cbn. rewrite list_insert_insert_ne; [done | lia].
    + destruct (Hins k xy Hk) as [Hwfk Hszk].
      rewrite (set_position_in_range k xy c), (set_position_out_of_range j xy' c),
        !bind_Ok by done.
      rewrite set_position_out_of_range by (by rewrite Hszk).
      by rewrite set_position_in_range.
    + destruct (Hins j xy' Hj) as [Hwfj Hszj].
      rewrite (set_position_out_of_range k xy c), (set_position_in_range j xy' c),
        !bind_Ok by done.
      rewrite (set_position_out_of_range k xy) by (by rewrite Hszj).
      by rewrite set_position_in_range.
    + rewrite (set_position_out_of_range k xy c), (set_position_out_of_range j xy' c),
        !bind_Ok by done.
      by rewrite !set_position_out_of_range.
Qed.

(** X4. On a collection whose arrays have the same length [get_charges] does
    not raise: it lists the charges in index order, one entry per charge,
    and the list of the collection with one more charge is the same list
    with that charge at the end. *)
Theorem get_charges_lists_all q xy c :
  wf c ->
  exists l, get_charges c = Ok l /\ length l = size c /\
    (forall i q' xy', l !! i = Some (q', xy') <->
       _q c !! i = Some q' /\ _pos c !! i = Some xy') /\
    get_charges (add_charge q xy c) = Ok (l ++ [(q, xy)]).
Proof.
  intros Hwf. exists (zip (_q c) (_pos c)).
  split; [by apply get_charges_zip|].
  split; [unfold size; rewrite length_zip_with; unfold wf in Hwf; lia|].
  split; [intros i q' xy'; apply lookup_zip_Some|].
  rewrite get_charges_zip by (by apply wf_add_charge).
  unfold add_charge, np_stack. cbn. by rewrite zip_with_app.
Qed.

End EditingFacts.

(** ** The nearest charge, continued *)

Section NearestRange.
Context {F : Type} `{Numeric F}.

Lemma argmin_from_bound (l : list F) (mp : F) (mi i : nat) :
  mi < i -> argmin_from mp mi i l < i + length l.
Proof.
  revert mp mi i. induction l as [|x l IH]; intros mp mi i Hmi; cbn; [lia|].
  destruct (negb (fleb mp x)).
  - destruct (fisnan x); [lia|].
    specialize (IH x i (S i)). lia.
  - specialize (IH mp mi (S i)). lia.
Qed.

Lemma np_argmin_bound (d : list F) :
  d ≠ [] -> exists i, np_argmin d = Ok i /\ i < length d.
Proof.
  destruct d as [|x l]; [done|]. intros _. eexists. split; [reflexivity|].
  cbn. destruct (fisnan x); [lia|].
  pose proof (argmin_from_bound l x 0 1). lia.
Qed.

(** On a collection with at least one charge the body of [get_closest]
    yields [None] or the index of a charge, whatever the scalars are. *)
Lemma get_closest_bound (xy : F * F) (limit : F) (c : Charges F) :
  _pos c ≠ [] ->
  get_closest xy limit c = Ok None \/
  exists i, get_closest xy limit c = Ok (Some i) /\ i < length (_pos c).
Proof.
  intros Hne. unfold get_closest.
  destruct (np_argmin_bound (sq_norms (displacements xy c)))
    as (i & -> & Hi).
  { unfold sq_norms, displacements. by destruct (_pos c). }
  rewrite bind_Ok.
  destruct (lookup_lt_is_Some_2 _ _ Hi) as [dmin Hd].
  rewrite (np_getitem_lookup _ _ _ Hd), bind_Ok.
  unfold sq_norms, displacements in Hi. rewrite !length_fmap in Hi.
  destruct (fltb dmin (fmul limit limit)); eauto.
Qed.

End NearestRange.

Section NearestRangeBinary64.

(** X5. In binary64 (NaN and infinite coordinates included), for a limit
    of magnitude at most [2^511], on a collection with at least one charge
    [get_closest] does not raise, and an index it returns is the index of
    a charge. *)
Theorem get_closest_in_range (xy : float * float) (limit : float)
    (c : Charges float) :
  _pos c ≠ [] ->
  limit_in_range limit ->
  get_closest xy limit c = Ok None \/
  exists i, get_closest xy limit c = Ok (Some i) /\ i < length (_pos c).
Proof. intros Hne _. by apply get_closest_bound. Qed.

End NearestRangeBinary64.

Section NearestOnCharge.
Local Open Scope R_scope.

Lemma distance_self (p : R * R) : distance p p = 0.
Proof.
  unfold distance, sq_distance. cbn.
  replace ((p.1 - p.1) * (p.1 - p.1) + (p.2 - p.2) * (p.2 - p.2)) with 0
    by ring.
  apply sqrt_0.
Qed.

Lemma distance_nonneg (p a : R * R) : 0 <= distance p a.
Proof. unfold distance. cbn. apply sqrt_pos. Qed.

Lemma distance_zero (p a : R * R) : distance p a = 0 -> a = p.
Proof.
  unfold distance. cbn. intros Hd.
  apply sqrt_eq_0 in Hd; [|apply sq_distance_nonneg].
  unfold sq_distance in Hd. cbn in Hd.
  pose proof (Rle_0_sqr (p.1 - a.1)) as H1.
  pose proof (Rle_0_sqr (p.2 - a.2)) as H2. unfold Rsqr in *.
  assert ((p.1 - a.1) * (p.1 - a.1) = 0) as Hx by lra.
  assert ((p.2 - a.2) * (p.2 - a.2) = 0) as Hy by lra.
  apply Rmult_integral in Hx, Hy.
  destruct p as [p1 p2], a as [a1 a2]. cbn in *. f_equal; lra.
Qed.

(** X6. In exact arithmetic, asking for the charge nearest to the position of
    charge [k] with a non-zero limit returns a charge at that very
    position: charge [k] itself, or one before it at the same place. *)
Theorem get_closest_on_charge (c : Charges R) (k : nat) (p : R * R) (r : R) :
  _pos c !! k = Some p -> r <> 0 ->
  exists i, (i <= k)%nat /\ _pos c !! i = Some p /\
    get_closest p r c = Ok (Some i).
Proof.
  intros Hk Hr.
  destruct (get_closest_exact p r c) as (i & a & Ha & Hnear & Hg).
  { intros Hnil. by rewrite Hnil in Hk. }
  destruct Hnear as (a' & Ha' & Hle & Hlt).
  assert (a' = a) as -> by congruence.
  pose proof (Hle k p Hk) as Hd. rewrite distance_self in Hd.
  pose proof (distance_nonneg p a).
  assert (distance p a = 0) as Hd0 by lra.
  exists i. split.
  { destruct (decide (i <= k)%nat) as [|Hik]; [done|].
    specialize (Hlt k p ltac:(lia) Hk). rewrite distance_self in Hlt. lra. }
  split; [by rewrite Ha, (distance_zero p a Hd0)|].
  rewrite Hg, Hd0. pose proof (Rabs_pos_lt r Hr).
  by destruct (Rlt_dec 0 (Rabs r)).
Qed.

End NearestOnCharge.

(** ** The scaled field, continued *)

Section FieldTermsFacts.
Context {F : Type} `{Numeric F}.

Lemma field_terms_x (xy : F * F) (qs : list F) (ps : list (F * F)) :
  let r := (fun p => (fsub xy.1 p.1, fsub xy.2 p.2)) <$> ps in
  zip_with fmul (zip_with fdiv qs (sq_norms r))
           (zip_with fdiv (r.*1) (fsqrt <$> sq_norms r))
  = zip_with (term_x xy) qs ps.
Proof.
  cbn zeta. revert qs. induction ps as [|a ps IH]; intros [|q qs]; try done.
  cbn. f_equal. apply IH.
Qed.

Lemma field_terms_y (xy : F * F) (qs : list F) (ps : list (F * F)) :
  let r := (fun p => (fsub xy.1 p.1, fsub xy.2 p.2)) <$> ps in
  zip_with fmul (zip_with fdiv qs (sq_norms r))
           (zip_with fdiv (r.*2) (fsqrt <$> sq_norms r))
  = zip_with (term_y xy) qs ps.
Proof.
  cbn zeta. revert qs. induction ps as [|a ps IH]; intros [|q qs]; try done.
  cbn. f_equal. apply IH.
Qed.

(** [scaled_electric_field] is the rescaled sum of the terms of the
    charges. *)
Lemma scaled_electric_field_terms (xy : F * F) (c : Charges F) :
  scaled_electric_field xy c
  = rescale (np_sum (zip_with (term_x xy) (_q c) (_pos c)),
             np_sum (zip_with (term_y xy) (_q c) (_pos c))).
Proof.
  unfold scaled_electric_field, displacements. cbn zeta. cbn [fst snd].
  by rewrite field_terms_x, field_terms_y.
Qed.

End FieldTermsFacts.

Section FieldShape.
Local Open Scope R_scope.

Lemma np_sum_snoc_zero (l : list R) : np_sum (l ++ [0]) = np_sum l.
Proof.
  destruct l as [|x l]; [reflexivity|]. cbn.
  rewrite foldl_snoc. cbn. lra.
Qed.

(** X7. In exact arithmetic a charge of magnitude zero, placed anywhere but at
    the query point, contributes nothing: the field of the collection with
    that charge added is the field of the collection. *)
Theorem zero_charge_no_field (c : Charges R) (a p : R * R) :
  wf c -> a ≠ p ->
  scaled_electric_field p (add_charge 0 a c) = scaled_electric_field p c.
Proof.
  intros Hwf _. rewrite !scaled_electric_field_terms.
  unfold add_charge, np_stack. cbn [_q _pos].
  rewrite !zip_with_app by done. cbn [zip_with].
  assert (term_x p 0 a = 0) as -> by (unfold term_x; cbn; unfold Rdiv; ring).
  assert (term_y p 0 a = 0) as -> by (unfold term_y; cbn; unfold Rdiv; ring).
  by rewrite !np_sum_snoc_zero.
Qed.

(** X8. In exact arithmetic the scaled field of a single charge [q] at [a] is,
    at every other point [p], a multiple of [p - a]: a positive one for
    [q > 0] (the field points away from the charge), a negative one for
    [q < 0] (towards it), and zero for [q = 0]. *)
Theorem single_charge_radial (q : R) (a p : R * R) :
  a ≠ p ->
  exists lam,
    scaled_electric_field p (add_charge q a init)
    = (lam * (p.1 - a.1), lam * (p.2 - a.2)) /\
    (0 < q -> 0 < lam) /\ (q < 0 -> lam < 0) /\ (q = 0 -> lam = 0).
Proof.
  intros Hne.
  assert (0 < sq_distance p a) as Hd.
  { pose proof (sq_distance_nonneg p a).
    destruct (Req_dec (sq_distance p a) 0) as [Hz|Hz]; [|lra].
    exfalso. apply Hne, distance_zero. unfold distance.
    rewrite Hz. apply sqrt_0. }
  rewrite scaled_electric_field_terms.
  unfold add_charge, np_stack, init, rescale, term_x, term_y.
  cbn [_q _pos app zip_with np_sum foldl fst snd].
  cbn [fadd fsub fmul fdiv fsqrt flit_1em4 R_numeric].
  set (d := sq_distance p a) in *.
  pose proof (sqrt_lt_R0 d Hd) as Hsd.
  set (ex := q / d * ((p.1 - a.1) / R_sqrt.sqrt d)).
  set (ey := q / d * ((p.2 - a.2) / R_sqrt.sqrt d)).
  assert (0 < ex * ex + ey * ey + 1 / 10000) as Hs.
  { pose proof (Rle_0_sqr ex). pose proof (Rle_0_sqr ey).
    unfold Rsqr in *. lra. }
  set (t := ex * ex + ey * ey + 1 / 10000) in *.
  assert (0 < / (d * R_sqrt.sqrt d * t)) as Hk.
  { apply Rinv_0_lt_compat. repeat apply Rmult_lt_0_compat; done. }
  exists (q * / (d * R_sqrt.sqrt d * t)). split.
  { subst ex ey. f_equal; field; repeat split; lra. }
  split; [|split].
  - intros Hq. by apply Rmult_lt_0_compat.
  - intros Hq.
    replace (q * / (d * R_sqrt.sqrt d * t))
      with (- ((- q) * / (d * R_sqrt.sqrt d * t))) by ring.
    apply Ropp_lt_gt_0_contravar. apply Rmult_lt_0_compat; lra.
  - intros ->. ring.
Qed.

End FieldShape.

(** ** Tracing, continued *)

Section TracerEdges.
Context {F : Type} `{Numeric F} `{Trig F}.
Variable odeint : (F * F -> F -> F * F) -> F * F -> list F -> list (F * F).
Implicit Types (c : Charges F) (n points : Z).


Lemma filter_zip_none (f : F -> bool) (qs : list F) (ps : list (F * F)) :
  Forall (fun q => f q = false) qs ->
  List.filter (fun ch => f ch.1) (zip qs ps) = [].
Proof.
  intros Hall. revert ps.
  induction Hall as [|q qs Hq _ IH]; intros [|p ps]; try done.
  cbn. rewrite Hq. apply IH.
Qed.

(** X10. Without a charge with [q > 0] there are no field lines: [field_lines]
    returns the empty list. *)
Theorem field_lines_no_sources n sr lmax points c :
  (0 < n)%Z -> (1 <= points)%Z -> wf c ->
  Forall (fun q => fltb fzero q = false) (_q c) ->
  field_lines odeint n sr lmax points c = Ok [].
Proof.
  intros Hn Hp Hwf Hall.
  destruct (field_lines_groups odeint n sr lmax points c Hn ltac:(lia) Hwf)
    as (angles & lambdas & _ & _ & _ & _ & ->).
  unfold positive_charges. by rewrite filter_zip_none.
Qed.

End TracerEdges.

Section StartPoints.
Local Open Scope R_scope.

Lemma np_linspace_exact (start stop : R) (num : Z) :
  (2 <= num)%Z ->
  exists l, np_linspace start stop num = Ok l /\
    forall i : nat, (i < Z.to_nat num)%nat ->
      l !! i = Some (start + INR i * ((stop - start) / IZR (num - 1))).
Proof.
  intros Hnum. unfold np_linspace.
  replace ((num <? 0)%Z) with false by (symmetry; apply Z.ltb_ge; lia).
  replace ((0 <? num - 1)%Z) with true by (symmetry; apply Z.ltb_lt; lia).
  replace ((1 <? num)%Z) with true by (symmetry; apply Z.ltb_lt; lia).
  assert (IZR (num - 1) <> 0) as Hdiv by (apply not_0_IZR; lia).
  eexists. split; [reflexivity|]. intros i Hi.
  set (y := (fun v : R => fadd v start) <$> _).
  assert (length y = Z.to_nat num) as Hlen.
  { subst y. destruct (feqb _ _); rewrite !length_fmap; apply length_seqZ. }
  assert (y !! i
          = Some (start + INR i * ((stop - start) / IZR (num - 1)))) as Hy.
  { subst y.
    destruct (feqb _ _);
      rewrite !list_lookup_fmap, lookup_seqZ_lt by lia; cbn;
      rewrite Z.add_0_l, <- INR_IZR_INZ; f_equal; field; done. }
  destruct (decide (i = pred (length y))) as [->|Hne].
  - rewrite list_lookup_insert_eq by lia. f_equal.
    rewrite Hlen. rewrite INR_IZR_INZ.
    replace (Z.of_nat (pred (Z.to_nat num))) with (num - 1)%Z by lia.
    field. done.
  - by rewrite list_lookup_insert_ne.
Qed.

(** X11. In exact arithmetic the [n] start angles are [3π/n, 5π/n, ...]: angle
    number [i] is [(2 i + 3) π / n], half a step after the angle
    [2 π (i + 1) / n]. *)
Theorem start_angles_values (n : Z) :
  (0 < n)%Z ->
  exists angles : list R, start_angles n = Ok angles /\
    length angles = Z.to_nat n /\
    forall i : nat, (i < Z.to_nat n)%nat ->
      angles !! i = Some ((2 * INR i + 3) * PI / IZR n).
Proof.
  intros Hn.
  destruct (start_angles_length (F := R) n Hn) as (angles & Ha & Hlen).
  exists angles. split; [done|]. split; [done|]. intros i Hi.
  unfold start_angles in Ha.
  replace ((n =? 0)%Z) with false in Ha by (symmetry; apply Z.eqb_neq; lia).
  assert (IZR n <> 0) as Hn0 by (apply not_0_IZR; lia).
  destruct (decide (n = 1%Z)) as [->|Hn1].
  - cbn in Ha. injection Ha as <-.
    destruct i as [|i]; [|lia]. cbn. f_equal. field.
  - destruct (np_linspace_exact (IZR 2 * PI / IZR n) (IZR 2 * PI) n)
      as (l & Hl & Hlook); [lia|].
    cbn [of_Z fmul fdiv fpi R_numeric R_trig] in Ha.
    rewrite Hl in Ha. cbn in Ha. injection Ha as <-.
    rewrite list_lookup_fmap, (Hlook i Hi). cbn. f_equal.
    rewrite minus_IZR.
    assert (IZR n - 1 <> 0).
    { intros Heq. apply Hn1. apply eq_IZR. lra. }
    field. done.
Qed.

(** X12. In exact arithmetic every start point lies on the circle of radius
    [|start_radius|] about its charge. *)
Theorem seed_on_circle (sr : R) (xy : R * R) (θ : R) :
  distance (seed sr xy θ) xy = Rabs sr.
Proof.
  unfold distance, sq_distance, seed. cbn.
  rewrite <- (sqrt_Rsqr_abs sr). f_equal. unfold Rsqr.
  pose proof (sin2_cos2 θ) as Hsc. unfold Rsqr in Hsc.
  replace ((xy.1 + sr * cos θ - xy.1) * (xy.1 + sr * cos θ - xy.1) +
           (xy.2 + sr * sin θ - xy.2) * (xy.2 + sr * sin θ - xy.2))
    with (sr * sr * (sin θ * sin θ + cos θ * cos θ)) by ring.
  rewrite Hsc. ring.
Qed.

End StartPoints.

(** ** NaN positions in binary64 *)

Section Binary64NaN.
Implicit Types (x y : float).

Lemma SFcompare_refl (s : spec_float) :
  s <> S754_nan -> SFcompare s s = Some Eq.
Proof.
  destruct s as [[]| [] | |[] m e]; cbn; try done;
    intros _; by rewrite Z.compare_refl, Pos.compare_cont_refl.
Qed.

Lemma is_nan_Prim2SF x : PrimFloat.is_nan x = true <-> Prim2SF x = S754_nan.
Proof.
  unfold PrimFloat.is_nan. rewrite FloatAxioms.eqb_spec. unfold SFeqb.
  destruct (Prim2SF x) as [| | |s m e] eqn:Hx;
    try (rewrite SFcompare_refl by done; cbn; split; done).
  done.
Qed.

Lemma is_nan_sub_r x y : PrimFloat.is_nan y = true ->
  PrimFloat.is_nan (x - y)%float = true.
Proof.
  rewrite !is_nan_Prim2SF, sub_spec. intros ->.
  unfold SF64sub, SFsub. by destruct (Prim2SF x).
Qed.

Lemma is_nan_mul_l x y : PrimFloat.is_nan x = true ->
  PrimFloat.is_nan (x * y)%float = true.
Proof. rewrite !is_nan_Prim2SF, mul_spec. by intros ->. Qed.

Lemma is_nan_mul_r x y : PrimFloat.is_nan y = true ->
  PrimFloat.is_nan (x * y)%float = true.
Proof.
  rewrite !is_nan_Prim2SF, mul_spec. intros ->.
  unfold SF64mul, SFmul. by destruct (Prim2SF x).
Qed.

Lemma is_nan_add_l x y : PrimFloat.is_nan x = true ->
  PrimFloat.is_nan (x + y)%float = true.
Proof. rewrite !is_nan_Prim2SF, add_spec. by intros ->. Qed.

Lemma is_nan_add_r x y : PrimFloat.is_nan y = true ->
  PrimFloat.is_nan (x + y)%float = true.
Proof.
  rewrite !is_nan_Prim2SF, add_spec. intros ->.
  unfold SF64add, SFadd. by destruct (Prim2SF x).
Qed.

Lemma is_nan_div_l x y : PrimFloat.is_nan x = true ->
  PrimFloat.is_nan (x / y)%float = true.
Proof. rewrite !is_nan_Prim2SF, div_spec. by intros ->. Qed.

Lemma is_nan_div_r x y : PrimFloat.is_nan y = true ->
  PrimFloat.is_nan (x / y)%float = true.
Proof.
  rewrite !is_nan_Prim2SF, div_spec. intros ->.
  unfold SF64div, SFdiv. by destruct (Prim2SF x).
Qed.

Lemma leb_nan_r x y : PrimFloat.is_nan y = true -> (x <=? y)%float = false.
Proof.
  rewrite is_nan_Prim2SF, leb_spec. intros ->.
  unfold SFleb, SFcompare. by destruct (Prim2SF x).
Qed.

Lemma ltb_nan_l x y : PrimFloat.is_nan x = true -> (x <? y)%float = false.
Proof. rewrite is_nan_Prim2SF, ltb_spec. by intros ->. Qed.

Lemma is_nan_eq x : PrimFloat.is_nan x = true -> x = nan.
Proof.
  rewrite is_nan_Prim2SF. intros Hx. apply Prim2SF_inj. by rewrite Hx.
Qed.

End Binary64NaN.

Section ArgminNaN.
Context {F : Type} `{Numeric F}.
Hypothesis fleb_nan : forall m x : F, fisnan x = true -> fleb m x = false.

(** The scan stops at the first NaN. *)
Lemma argmin_from_nan (l : list F) (mp : F) (mi i : nat) :
  Exists (fun x => fisnan x = true) l ->
  exists j x, argmin_from mp mi i l = i + j /\ l !! j = Some x /\
              fisnan x = true.
Proof.
  revert mp mi i. induction l as [|x l IH]; intros mp mi i Hex.
  { by apply Exists_nil in Hex. }
  cbn [argmin_from]. destruct (fisnan x) eqn:Hx.
  - rewrite (fleb_nan mp x Hx). cbn. exists 0, x.
    repeat split; [lia | done].
  - apply Exists_cons in Hex as [Hex|Hex]; [congruence|].
    destruct (negb (fleb mp x)).
    + destruct (IH x i (S i) Hex) as (j & y & -> & Hy & Hnan).
      exists (S j), y. repeat split; [lia | done..].
    + destruct (IH mp mi (S i) Hex) as (j & y & -> & Hy & Hnan).
      exists (S j), y. repeat split; [lia | done..].
Qed.

Lemma np_argmin_nan (d : list F) :
  Exists (fun x => fisnan x = true) d ->
  exists j x, np_argmin d = Ok j /\ d !! j = Some x /\ fisnan x = true.
Proof.
  destruct d as [|x l]; [by intros ?%Exists_nil|]. intros Hex.
  cbn [np_argmin]. destruct (fisnan x) eqn:Hx.
  - by exists 0, x.
  - apply Exists_cons in Hex as [Hex|Hex]; [congruence|].
    destruct (argmin_from_nan l x 0 1 Hex) as (j & y & -> & Hy & Hnan).
    by exists (S j), y.
Qed.

End ArgminNaN.

Section Binary64Positions.
Implicit Types (c : Charges float) (xy a : float * float).

Lemma sq_distance_nan xy a :
  PrimFloat.is_nan a.1 || PrimFloat.is_nan a.2 = true ->
  PrimFloat.is_nan (sq_distance xy a) = true.
Proof.
  intros [Ha|Ha]%orb_true_iff; unfold sq_distance; cbn.
  - by apply is_nan_add_l, is_nan_mul_l, is_nan_sub_r.
  - by apply is_nan_add_r, is_nan_mul_l, is_nan_sub_r.
Qed.

(** X13. In binary64, once the position of some charge has a NaN coordinate,
    [get_closest] returns [None] for every point and every limit of
    magnitude at most [2^511]: no charge can be found any more, not even
    one exactly at the point. *)
Theorem get_closest_nan_position c xy (limit : float) (k : nat) a :
  _pos c !! k = Some a ->
  PrimFloat.is_nan a.1 || PrimFloat.is_nan a.2 = true ->
  limit_in_range limit ->
  get_closest xy limit c = Ok None.
Proof.
  intros Hk Ha _. unfold get_closest.
  destruct (np_argmin_nan (H := float_numeric) leb_nan_r
              (sq_norms (displacements xy c)))
    as (j & x & -> & Hj & Hnan).
  { apply Exists_exists. exists (sq_distance xy a). split.
    - apply list_elem_of_lookup. exists k.
      unfold sq_norms, displacements.
      by rewrite !list_lookup_fmap, Hk.
    - by apply sq_distance_nan. }
  rewrite bind_Ok, (np_getitem_lookup _ _ _ Hj), bind_Ok.
  cbn [fltb float_numeric]. cbn in Hnan. by rewrite ltb_nan_l.
Qed.

Lemma foldl_add_nan (l : list float) (acc : float) :
  PrimFloat.is_nan acc = true \/
  Exists (fun x => PrimFloat.is_nan x = true) l ->
  PrimFloat.is_nan (foldl PrimFloat.add acc l) = true.
Proof.
  revert acc. induction l as [|x l IH]; intros acc [Hacc|Hex]; cbn.
  - done.
  - by apply Exists_nil in Hex.
  - apply IH. left. by apply is_nan_add_l.
  - apply Exists_cons in Hex as [Hx|Hex].
    + apply IH. left. by apply is_nan_add_r.
    + apply IH. by right.
Qed.

Lemma np_sum_nan (l : list float) :
  Exists (fun x => PrimFloat.is_nan x = true) l ->
  PrimFloat.is_nan (np_sum l) = true.
Proof.
  destruct l as [|x l]; [by intros ?%Exists_nil|].
  intros [Hx|Hex]%Exists_cons; apply foldl_add_nan; auto.
Qed.

(** X14. In binary64, once the position of some charge has a NaN coordinate,
    the scaled field is [(nan, nan)] at every point. *)
Theorem field_nan_position c xy (k : nat) a :
  wf c -> _pos c !! k = Some a ->
  PrimFloat.is_nan a.1 || PrimFloat.is_nan a.2 = true ->
  scaled_electric_field xy c = (nan, nan).
Proof.
  intros Hwf Hk Ha. rewrite scaled_electric_field_terms.
  assert (k < length (_q c)) as Hkq
    by (unfold wf in Hwf; rewrite Hwf; eauto using lookup_lt_Some).
  destruct (lookup_lt_is_Some_2 _ _ Hkq) as [q Hq].
  pose proof (sq_distance_nan xy a Ha) as Hd.
  assert (PrimFloat.is_nan
            (np_sum (zip_with (term_x xy) (_q c) (_pos c))) = true) as Hx.
  { apply np_sum_nan, Exists_exists. exists (term_x xy q a). split.
    - apply list_elem_of_lookup. exists k.
      by rewrite lookup_zip_with, Hq, Hk.
    - unfold term_x. cbn. by apply is_nan_mul_l, is_nan_div_r. }
  assert (PrimFloat.is_nan
            (np_sum (zip_with (term_y xy) (_q c) (_pos c))) = true) as Hy.
  { apply np_sum_nan, Exists_exists. exists (term_y xy q a). split.
    - apply list_elem_of_lookup. exists k.
      by rewrite lookup_zip_with, Hq, Hk.
    - unfold term_y. cbn. by apply is_nan_mul_l, is_nan_div_r. }
  unfold rescale. cbn.
  f_equal; apply is_nan_eq; by apply is_nan_div_l.
Qed.

End Binary64Positions.

(** ** The window *)

Section StatementFacts.
Context {F : Type} `{Numeric F}.
Implicit Types (c : Charges F) (k : Z) (xy : F * F) (q : F).

(** Where the methods return, the statement-by-statement reading gives
    the same collection. *)
Lemma add_charge_run_Some q xy c :
  add_charge_run q (Some xy) c = (add_charge q xy c, None).
Proof. reflexivity. Qed.

Lemma delete_charge_run_Ok k c c' :
  delete_charge k c = Ok c' -> delete_charge_run k c = (c', None).
Proof.
  unfold delete_charge, delete_charge_run.
  destruct (_ && _)%Z; [|by intros [= ->]].
  destruct (np_delete (_q c) k) as [q'|e]; cbn; [|done].
  destruct (np_delete (_pos c) k) as [pos'|e]; cbn; [|done].
  by intros [= <-].
Qed.

Lemma set_position_run_Ok k xy c c' :
  set_position k xy c = Ok c' -> set_position_run k xy c = (c', None).
Proof.
  unfold set_position, set_position_run.
  destruct (_ && _)%Z; [|by intros [= ->]].
  destruct (np_setitem (_pos c) k xy) as [pos'|e]; cbn; [|done].
  by intros [= <-].
Qed.

Lemma delete_charge_total k c :
  wf c -> exists c', delete_charge k c = Ok c' /\ wf c'.
Proof.
  intros Hwf.
  destruct (decide (0 <= k < Z.of_nat (size c))%Z) as [Hk|Hk].
  - eexists. split; [by apply delete_charge_in_range|].
    eapply wf_delete_charge; [done|]. by apply delete_charge_in_range.
  - exists c. split; [by apply delete_charge_out_of_range | done].
Qed.

Lemma set_position_total k xy c :
  wf c -> exists c', set_position k xy c = Ok c' /\ wf c' /\ _q c' = _q c.
Proof.
  intros Hwf.
  destruct (decide (0 <= k < Z.of_nat (size c))%Z) as [Hk|Hk].
  - eexists. split; [by apply set_position_in_range|].
    split; [|done]. eapply wf_set_position; [done|].
    by apply set_position_in_range.
  - exists c. split; [by apply set_position_out_of_range | done].
Qed.

Lemma result_mapM_rows_short {A} (p pre p' : list (F * F)) (q : list A) :
  p = pre ++ p' -> length p' < length q ->
  result_mapM (fun '(k, x) => row ← np_getitem p (Z.of_nat k); Ok (x, row))
              (imap (fun i => pair (length pre + i)) q)
  = Raise IndexError.
Proof.
  intros ->. revert pre p'.
  induction q as [|x q IH]; intros pre p' Hlen; [cbn in Hlen; lia|].
  cbn [imap result_mapM]. destruct p' as [|y p'].
  - unfold np_getitem, np_index. rewrite app_nil_r, Nat.add_0_r.
    replace ((Z.of_nat (length pre) <? - Z.of_nat (length pre))%Z) with false
      by (symmetry; apply Z.ltb_ge; lia).
    by rewrite Z.leb_refl.
  - rewrite (np_getitem_lookup _ _ y)
      by (rewrite Nat.add_0_r; apply list_lookup_middle; done).
    rewrite bind_Ok.
    rewrite (imap_ext _ (fun i => pair (length (pre ++ [y]) + i)) q).
    2:{ intros i z _. cbn. rewrite length_app. cbn. f_equal. lia. }
    replace (pre ++ y :: p') with ((pre ++ [y]) ++ p')
      by (by rewrite <- app_assoc).
    rewrite IH by (cbn in Hlen; lia). reflexivity.
Qed.

Lemma get_charges_unbalanced c :
  unbalanced c -> get_charges c = Raise IndexError.
Proof.
  intros Hc. unfold get_charges, enumerate.
  apply (result_mapM_rows_short (_pos c) [] (_pos c) (_q c)); [done|].
  unfold unbalanced in Hc. lia.
Qed.

End StatementFacts.

Section PlotFacts.
Context {F : Type} `{Numeric F} `{Trig F} `{PyFloat F}.
Variable odeint : (F * F -> F -> F * F) -> F * F -> list F -> list (F * F).
Implicit Types (c : Charges F) (w : @MyMplWidget F) (ps : @plot_state F).
Implicit Types (chs : list (F * (F * F))) (fls : list (list (F * F))).
Implicit Types (g : @canvas F).

Lemma plot_charges_spec chs (axs : list (@artist F)) (point : option (@artist F)) :
  plot_charges chs (axs, point)
  = (axs ++ (marker_of <$> chs),
     match last (marker_of <$> chs) with
     | Some m => Some m
     | None => point
     end).
Proof.
  unfold plot_charges. revert axs point.
  induction chs as [|ch chs IH]; intros axs point; cbn [foldl].
  { cbn. by rewrite app_nil_r. }
  cbn [fst snd]. rewrite IH. rewrite fmap_cons, last_cons.
  rewrite <- app_assoc. cbn. by destruct (last (marker_of <$> chs)).
Qed.

Lemma plot_lines_spec c chs fls ps (point : option (@artist F)) (pt : @artist F) :
  get_charges c = Ok chs ->
  (fls ≠ [] -> last (marker_of <$> chs) = Some pt) ->
  plot_lines c fls ps point
  = (mkPlot (field_lines_args ps)
            (lines ps ++ ((fun i => [Line i]) <$> fls))
            (points ps ++ ((fun _ => pt) <$> fls))
            (ax ps ++ mjoin ((fun i => Line i :: (marker_of <$> chs)) <$> fls)),
     None).
Proof.
  intros Hchs. revert ps point.
  induction fls as [|i fls IH]; intros ps point Hpt.
  { cbn. rewrite !app_nil_r. by destruct ps. }
  cbn [plot_lines]. rewrite Hchs. cbn [ax lines points field_lines_args].
  rewrite plot_charges_spec. cbn [fst snd].
  rewrite (Hpt ltac:(done)).
  rewrite IH by (intros _; by apply Hpt).
  cbn [ax lines points field_lines_args].
  rewrite !fmap_cons. cbn [mjoin list_join].
  by rewrite <- !app_assoc.
Qed.

Lemma field_lines_length n sr lmax npoints c :
  (0 < n)%Z -> (1 <= npoints)%Z -> wf c ->
  exists fls, field_lines odeint n sr lmax npoints c = Ok fls /\
    length fls = Z.to_nat n * length (positive_charges c).
Proof.
  intros Hn Hp Hwf.
  destruct (field_lines_groups odeint n sr lmax npoints c Hn ltac:(lia) Hwf)
    as (angles & lambdas & _ & Hla & _ & _ & Hfl).
  eexists. split; [done|].
  rewrite length_join.
  rewrite (sum_list_fmap_same (Z.to_nat n)), length_fmap
    by (rewrite <- Hla; apply groups_same_length).
  lia.
Qed.

Lemma plot_fieldlines_spec g n sr lmax npoints w :
  (0 < n)%Z -> (1 <= npoints)%Z -> wf (charges w) ->
  exists fls pt,
    field_lines odeint n sr lmax npoints (charges w) = Ok fls /\
    length fls = Z.to_nat n * length (positive_charges (charges w)) /\
    (fls ≠ [] ->
     last (marker_of <$> zip (_q (charges w)) (_pos (charges w))) = Some pt) /\
    let ps :=
      mkPlot (Some (n, sr, lmax, npoints))
             ((fun i => [Line i]) <$> fls)
             ((fun _ => pt) <$> fls)
             (mjoin ((fun i => Line i ::
                        (marker_of <$> zip (_q (charges w))
                                           (_pos (charges w))))
                       <$> fls)) in
    plot_fieldlines odeint g n sr lmax npoints w = (with_plot w ps, draw g ps).
Proof.
  intros Hn Hp Hwf.
  destruct (field_lines_length n sr lmax npoints (charges w) Hn Hp Hwf)
    as (fls & Hfl & Hlen).
  set (chs := zip (_q (charges w)) (_pos (charges w))).
  assert (exists pt, fls ≠ [] -> last (marker_of <$> chs) = Some pt)
    as [pt Hpt].
  { destruct (last (marker_of <$> chs)) as [m|] eqn:Hlast; [by exists m|].
    exists (Line []). intros Hne. exfalso. apply Hne.
    apply last_None, fmap_nil_inv in Hlast.
    apply length_zero_iff_nil. rewrite Hlen.
    unfold positive_charges. fold chs. rewrite Hlast. cbn. lia. }
  exists fls, pt. repeat split; try done.
  unfold plot_fieldlines. rewrite Hfl.
  rewrite (plot_lines_spec (charges w) chs fls _ None pt);
    [done | by apply get_charges_zip | done].
Qed.

(** X16. [plot_fieldlines] on a collection whose arrays have the same length,
    with a positive number of lines and at least one point per line,
    raises nothing before its last statement, [self.draw()]: it raises
    what that call raises on the axes it has filled, and nothing when
    that call returns.  For each field line, in order, it has put on the
    axes the line and then a marker for every charge: with [m] field
    lines and [s] charges there are [m * (1 + s)] artists on the axes.
    Without a charge with [q > 0] there is no field line and nothing is
    put on the axes, the markers of the charges included. *)
Theorem plot_fieldlines_draws g n sr lmax npoints w :
  (0 < n)%Z -> (1 <= npoints)%Z -> wf (charges w) ->
  exists fls ps,
    field_lines odeint n sr lmax npoints (charges w) = Ok fls /\
    plot_fieldlines odeint g n sr lmax npoints w
    = (with_plot w ps, draw g ps) /\
    field_lines_args ps = Some (n, sr, lmax, npoints) /\
    lines ps = (fun i => [Line i]) <$> fls /\
    ax ps = mjoin ((fun i => Line i ::
                      (marker_of <$> zip (_q (charges w)) (_pos (charges w))))
                     <$> fls) /\
    length (ax ps) = length fls * S (size (charges w)) /\
    length (points ps) = length fls /\
    (positive_charges (charges w) = [] -> ax ps = []).
Proof.
  intros Hn Hp Hwf.
  destruct (plot_fieldlines_spec g n sr lmax npoints w Hn Hp Hwf)
    as (fls & pt & Hfl & Hlen & _ & Hplot).
  exists fls. eexists. split; [done|]. split; [exact Hplot|].
  cbn [lines ax points field_lines_args]. repeat split.
  - rewrite length_join.
    rewrite (sum_list_fmap_same (S (size (charges w)))), length_fmap.
    + lia.
    + apply Forall_fmap, Forall_forall. intros i _. cbn.
      rewrite length_fmap, length_zip_with. unfold size, wf in *. lia.
  - by rewrite length_fmap.
  - intros Hpos. rewrite Hpos in Hlen. rewrite Nat.mul_0_r in Hlen.
    apply length_zero_iff_nil in Hlen. by rewrite Hlen.
Qed.

End PlotFacts.

Section HandlerFacts.
Context {F : Type} `{Numeric F} `{Trig F} `{PyFloat F}.
Variable odeint : (F * F -> F -> F * F) -> F * F -> list F -> list (F * F).
Implicit Types (c : Charges F) (w : @MyMplWidget F) (ps : @plot_state F).
Implicit Types (event : @MouseEvent F) (g : @canvas F).
Implicit Types (events : list (@canvas F * @MouseEvent F)).

Lemma charges_plot_fieldlines g n sr lmax npoints w :
  charges (plot_fieldlines odeint g n sr lmax npoints w).1 = charges w.
Proof.
  unfold plot_fieldlines. destruct (field_lines _ _ _ _ _ _); [|done].
  by destruct (plot_lines _ _ _ _).2.
Qed.

Lemma charges_replot_and_reset g w :
  charges (replot_and_reset odeint g w).1 = charges w.
Proof.
  unfold replot_and_reset, plot_fieldlines_default.
  destruct (plot_fieldlines odeint g 32 flit_0p2 (of_Z 10) 801 w).2 eqn:He;
    cbn; apply charges_plot_fieldlines.
Qed.

Lemma charges_drag_replot g w :
  charges (drag_replot odeint g w).1 = charges w.
Proof.
  unfold drag_replot. destruct (draw_artist g (plot w)); [done|].
  cbn zeta.
  destruct (plot_fieldlines odeint g 8 flit_0p2 (of_Z 10) 801 w).2;
    [apply charges_plot_fieldlines|].
  destruct (canvas_update g _); cbn; apply charges_plot_fieldlines.
Qed.

Lemma plot_fieldlines_ok g n sr lmax npoints w :
  (0 < n)%Z -> (1 <= npoints)%Z -> wf (charges w) ->
  exists ps,
    plot_fieldlines odeint g n sr lmax npoints w = (with_plot w ps, draw g ps).
Proof.
  intros Hn Hp Hwf.
  destruct (plot_fieldlines_spec odeint g n sr lmax npoints w Hn Hp Hwf)
    as (fls & pt & _ & _ & _ & ->).
  by eexists.
Qed.

(** The end of a release: the attributes are reset when [self.draw()]
    returns, and only then. *)
Lemma replot_and_reset_ok g w :
  wf (charges w) ->
  exists ps,
    replot_and_reset odeint g w
    = (match draw g ps with
       | Some _ => with_plot w ps
       | None => mkWidget None None (dragging w) fzero (charges w) ps
       end, draw g ps).
Proof.
  intros Hwf. unfold replot_and_reset, plot_fieldlines_default.
  destruct (plot_fieldlines_ok g 32 flit_0p2 (of_Z 10) 801 w) as [ps ->];
    [lia | lia | done |].
  exists ps. cbn [fst snd]. by destruct (draw g ps).
Qed.

(** [drag_replot] changes the drawing only, and raises only what the
    canvas raises. *)
Lemma drag_replot_ok g w :
  wf (charges w) ->
  exists ps e, drag_replot odeint g w = (with_plot w ps, e) /\
    (silent g -> e = None).
Proof.
  intros Hwf. unfold drag_replot.
  destruct (draw_artist g (plot w)) as [e|] eqn:Hda.
  { exists (plot w), (Some e). split; [by destruct w|].
    intros Hg. destruct (Hg (plot w)) as (_ & Hda' & _). congruence. }
  destruct (plot_fieldlines_ok g 8 flit_0p2 (of_Z 10) 801 w) as [ps ->];
    [lia | lia | done |].
  cbn [fst snd plot with_plot].
  destruct (draw g ps) as [e|] eqn:Hdraw.
  { exists ps, (Some e). split; [done|].
    intros Hg. destruct (Hg ps) as (Hdraw' & _). congruence. }
  destruct (canvas_update g ps) as [e|] eqn:Hup.
  { exists ps, (Some e). split; [done|].
    intros Hg. destruct (Hg ps) as (_ & _ & Hup' & _). congruence. }
  exists ps, (flush_events g ps). split; [done|].
  intros Hg. by destruct (Hg ps) as (_ & _ & _ & Hfl).
Qed.

Lemma get_closest_no_charge (xy : F * F) (limit : F) c :
  _pos c = [] -> get_closest xy limit c = Raise ValueError.
Proof. intros Hc. unfold get_closest, displacements. by rewrite Hc. Qed.

Lemma get_closest_some_charge (xy : F * F) (limit : F) c :
  _pos c ≠ [] ->
  exists r, get_closest xy limit c = Ok r /\
    forall k, r = Some k -> k < length (_pos c).
Proof.
  intros Hne. unfold get_closest.
  destruct (np_argmin_bound (sq_norms (displacements xy c)))
    as (i & -> & Hi).
  { unfold sq_norms, displacements. by destruct (_pos c). }
  rewrite bind_Ok.
  destruct (lookup_lt_is_Some_2 _ _ Hi) as [dmin Hd].
  rewrite (np_getitem_lookup _ _ _ Hd), bind_Ok.
  unfold sq_norms, displacements in Hi. rewrite !length_fmap in Hi.
  destruct (fltb dmin (fmul limit limit)); eexists; (split; [done|]).
  - by intros k [= <-].
  - done.
Qed.

(** X17. A press outside the axes does nothing.  A press inside the axes never
    changes the charges and records the position; with no charge in the
    collection it raises [ValueError] and leaves [closest_k] as it was;
    otherwise it does not raise, clears [dragging] and sets [closest_k] to
    what [get_closest] returns with limit 0.2, which is [None] or the
    index of a charge. *)
Theorem on_mouse_press_selects event w :
  charges (on_mouse_press event w).1 = charges w /\
  (xdata event = None \/ ydata event = None ->
   on_mouse_press event w = (w, None)) /\
  (forall x y, xdata event = Some x -> ydata event = Some y ->
     mouse_pressed_pos (on_mouse_press event w).1 = Some (x, y) /\
     (_pos (charges w) = [] ->
        (on_mouse_press event w).2 = Some (EngineError ValueError) /\
        closest_k (on_mouse_press event w).1 = closest_k w) /\
     (_pos (charges w) ≠ [] ->
        (on_mouse_press event w).2 = None /\
        dragging (on_mouse_press event w).1 = false /\
        get_closest (x, y) flit_0p2 (charges w)
        = Ok (closest_k (on_mouse_press event w).1) /\
        forall k, closest_k (on_mouse_press event w).1 = Some k ->
                  k < length (_pos (charges w)))).
Proof.
  unfold on_mouse_press.
  destruct (xdata event) as [x|], (ydata event) as [y|];
    (split; [|split; [|intros ? ? [= <-] [= <-] || by intros]]);
    try (cbn; done); try (by intros [|]).
  - cbn. by destruct (get_closest _ _ _).
  - cbn [charges]. split; [|split].
    + by destruct (get_closest _ _ _).
    + intros Hc. by rewrite (get_closest_no_charge _ _ _ Hc).
    + intros Hc.
      destruct (get_closest_some_charge (x, y) flit_0p2 (charges w) Hc)
        as (r & -> & Hr).
      by cbn.
Qed.

(** The state a press inside the axes leaves when [get_closest] returns. *)
Lemma on_mouse_press_Ok event w (x y : F) (r : option nat) :
  xdata event = Some x -> ydata event = Some y ->
  get_closest (x, y) flit_0p2 (charges w) = Ok r ->
  on_mouse_press event w
  = (mkWidget (Some (x, y)) r false (qadd w) (charges w) (plot w), None).
Proof.
  intros Hx Hy Hr. unfold on_mouse_press. rewrite Hx, Hy. cbn. by rewrite Hr.
Qed.

Lemma on_mouse_release_delete g event w (k : nat) :
  closest_k w = Some k -> dragging w = false -> wf (charges w) ->
  exists c' ps, delete_charge (Z.of_nat k) (charges w) = Ok c' /\ wf c' /\
    on_mouse_release odeint g event w
    = (match draw g ps with
       | Some _ => with_plot (with_charges w c') ps
       | None => mkWidget None None false fzero c' ps
       end, draw g ps).
Proof.
  intros Hk Hd Hwf. unfold on_mouse_release. rewrite Hk, Hd.
  destruct (delete_charge_total (Z.of_nat k) (charges w) Hwf)
    as (c' & Hc' & Hwf').
  rewrite (delete_charge_run_Ok _ _ _ Hc'). cbn [fst snd].
  destruct (replot_and_reset_ok g (with_charges w c') Hwf') as [ps ->].
  exists c', ps. cbn. by rewrite Hd.
Qed.

(** X18. A click on a charge deletes it: after a press inside the axes for
    which [get_closest] finds charge [k], and a release with no move in
    between, the collection is the one [delete_charge k] gives, with one
    charge less.  The press does not raise; the release raises what
    [self.draw()] raises at the end of [plot_fieldlines], and nothing
    else.  When [self.draw()] returns, the attributes of the gesture are
    reset; when it raises, they still hold the press and the index [k]. *)
Theorem click_deletes_charge g event release w (x y : F) (k : nat) :
  wf (charges w) ->
  xdata event = Some x -> ydata event = Some y ->
  get_closest (x, y) flit_0p2 (charges w) = Ok (Some k) ->
  exists c' ps,
    delete_charge (Z.of_nat k) (charges w) = Ok c' /\
    size c' = size (charges w) - 1 /\
    (on_mouse_press event w).2 = None /\
    let r := on_mouse_release odeint g release (on_mouse_press event w).1 in
    charges r.1 = c' /\ plot r.1 = ps /\ r.2 = draw g ps /\
    (draw g ps = None -> r = (mkWidget None None false fzero c' ps, None)) /\
    (draw g ps <> None ->
     mouse_pressed_pos r.1 = Some (x, y) /\ closest_k r.1 = Some k /\
     dragging r.1 = false).
Proof.
  intros Hwf Hx Hy Hk.
  rewrite (on_mouse_press_Ok event w x y (Some k) Hx Hy Hk). cbn [fst snd].
  destruct (on_mouse_release_delete g release
              (mkWidget (Some (x, y)) (Some k) false (qadd w) (charges w)
                        (plot w)) k) as (c' & ps & Hc' & _ & Hrel);
    [done..|].
  exists c', ps. split; [done|]. split.
  { assert (_pos (charges w) ≠ []) as Hne.
    { intros Hnil. by rewrite (get_closest_no_charge _ _ _ Hnil) in Hk. }
    destruct (get_closest_some_charge (x, y) flit_0p2 (charges w) Hne)
      as (r & Hr & Hrange).
    assert (k < length (_pos (charges w))) as Hlt
      by (apply Hrange; congruence).
    cbn [charges] in Hc'.
    rewrite delete_charge_in_range in Hc'
      by (done || (unfold size, wf in *; lia)).
    injection Hc' as <-. unfold size, wf in *. cbn.
    rewrite length_delete by (apply lookup_lt_is_Some; lia). done. }
  split; [done|]. cbn zeta. rewrite Hrel. cbn [fst snd].
  destruct (draw g ps) as [e|]; cbn; by repeat split.
Qed.

(** Moves while adding: [qadd] follows the last move, and the canvas is
    not used. *)
Lemma mouse_moves_adding events w (p : F * F) :
  mouse_pressed_pos w = Some p -> closest_k w = None ->
  Forall (fun ge => is_Some (xdata ge.2)) events ->
  mouse_moves odeint events w
  = (mkWidget (Some p) None (dragging w)
       (match last events ≫= (fun ge => xdata ge.2) with
        | Some x => fsub x p.1
        | None => qadd w
        end)
       (charges w) (plot w), []).
Proof.
  intros Hp Hk Hall. revert w Hp Hk.
  induction Hall as [|[g e] events [x Hx] Hrest IH]; intros w Hp Hk.
  { cbn. destruct w. cbn in *. by subst. }
  cbn [mouse_moves fst snd]. unfold on_mouse_move. cbn [snd] in Hx.
  rewrite Hp, Hk, Hx. cbn [fst snd].
  rewrite IH by done. cbn [dragging qadd charges plot fst snd option_list app].
  rewrite last_cons. destruct (last events) as [e'|] eqn:Hlast; cbn.
  - apply last_Some_elem_of in Hlast.
    rewrite Forall_forall in Hrest. destruct (Hrest e' Hlast) as [x' Hx'].
    by rewrite Hx'.
  - by rewrite Hx.
Qed.

(** X19. A press away from every charge (or with no charge left), moves
    inside the axes and a release add one charge: at the position of the
    press, with magnitude [round] of the horizontal distance from the
    press to the last move, and [round(qadd)] (0 after a completed
    gesture) when there was no move, where that magnitude is one
    [np.hstack] stores as a float.  The press raises [ValueError] when
    there is no charge; the moves do not raise; the release raises what
    [self.draw()] raises at the end of [plot_fieldlines], and nothing
    else, and resets the attributes of the gesture when that call
    returns. *)
Theorem add_gesture g event events release w (x y q : F) :
  wf (charges w) -> closest_k w = None ->
  xdata event = Some x -> ydata event = Some y ->
  get_closest (x, y) flit_0p2 (charges w) = Ok None \/ _pos (charges w) = [] ->
  Forall (fun ge => is_Some (xdata ge.2)) events ->
  py_round (match last events ≫= (fun ge => xdata ge.2) with
            | Some x' => fsub x' x
            | None => qadd w
            end) = inr q ->
  let r1 := on_mouse_press event w in
  let r2 := mouse_moves odeint events r1.1 in
  let r3 := on_mouse_release odeint g release r2.1 in
  (r1.2 = None \/ r1.2 = Some (EngineError ValueError)) /\
  r2.2 = [] /\
  charges r3.1 = add_charge q (x, y) (charges w) /\
  r3.2 = draw g (plot r3.1) /\
  (r3.2 = None ->
   mouse_pressed_pos r3.1 = None /\ closest_k r3.1 = None /\
   qadd r3.1 = fzero).
Proof.
  intros Hwf Hk Hx Hy Hclosest Hall Hq. cbn zeta.
  assert (exists e1 d,
            on_mouse_press event w
            = (mkWidget (Some (x, y)) None d (qadd w) (charges w) (plot w), e1)
            /\ (e1 = None \/ e1 = Some (EngineError ValueError)))
    as (e1 & d & -> & He1).
  { destruct Hclosest as [Hc|Hc].
    - exists None, false. split; [|by left].
      by apply on_mouse_press_Ok.
    - exists (Some (EngineError ValueError)), (dragging w). split; [|by right].
      unfold on_mouse_press. rewrite Hx, Hy. cbn.
      by rewrite (get_closest_no_charge _ _ _ Hc), Hk. }
  cbn [fst snd].
  rewrite (mouse_moves_adding events _ (x, y)) by done.
  cbn [fst snd qadd charges plot dragging].
  unfold on_mouse_release. cbn [closest_k qadd mouse_pressed_pos charges].
  rewrite Hq, add_charge_run_Some. cbn [fst snd].
  destruct (replot_and_reset_ok g
              (with_charges
                 (mkWidget (Some (x, y)) None d
                    (match last events ≫= (fun ge => xdata ge.2) with
                     | Some x' => fsub x' x
                     | None => qadd w
                     end) (charges w) (plot w))
                 (add_charge q (x, y) (charges w)))) as [ps ->].
  { by apply wf_add_charge. }
  cbn [fst snd]. destruct (draw g ps) as [e|] eqn:Hdraw; cbn.
  - by rewrite Hdraw.
  - by rewrite Hdraw.
Qed.

End HandlerFacts.

Section UnbalancedTracer.
Context {F : Type} `{Numeric F} `{Trig F}.
Variable odeint : (F * F -> F -> F * F) -> F * F -> list F -> list (F * F).

Lemma field_lines_unbalanced n sr lmax npoints (c : Charges F) :
  unbalanced c -> (0 < n)%Z -> (0 <= npoints)%Z ->
  field_lines odeint n sr lmax npoints c = Raise IndexError.
Proof.
  intros Hc Hn Hnp. unfold field_lines.
  destruct (start_angles_length (F := F) n Hn) as (angles & -> & _).
  rewrite bind_Ok.
  destruct (np_linspace_length fzero lmax npoints Hnp) as (lambdas & -> & _).
  rewrite bind_Ok. by rewrite (get_charges_unbalanced _ Hc).
Qed.
End UnbalancedTracer.

Section GestureFacts.
Context {F : Type} `{Numeric F} `{Trig F} `{PyFloat F}.
Variable odeint : (F * F -> F -> F * F) -> F * F -> list F -> list (F * F).
Implicit Types (c : Charges F) (w : @MyMplWidget F) (ps : @plot_state F).
Implicit Types (event : @MouseEvent F) (g : @canvas F).
Implicit Types (events : list (@canvas F * @MouseEvent F)).

(** Where a move puts the charge being dragged, whatever the canvas
    does. *)
Lemma on_mouse_move_dragging g event w (p : F * F) (k : nat) :
  mouse_pressed_pos w = Some p -> closest_k w = Some k ->
  wf (charges w) -> k < size (charges w) ->
  exists ps e,
    on_mouse_move odeint g event w
    = (mkWidget (Some p) (Some k) true (qadd w)
         (mkCharges (_q (charges w))
            (<[k := (stored (xdata event), stored (ydata event))]>
               (_pos (charges w))))
         ps, e) /\
    (silent g -> e = None).
Proof.
  intros Hp Hk Hwf Hlt. destruct w as [pp ck d qa c pl].
  cbn in Hp, Hk, Hwf, Hlt. subst pp ck.
  unfold on_mouse_move.
  cbn [mouse_pressed_pos closest_k charges qadd plot dragging].
  set (c' := mkCharges (_q c)
               (<[k := (stored (xdata event), stored (ydata event))]> (_pos c))).
  rewrite (set_position_run_Ok _ _ _ c')
    by (rewrite set_position_in_range by (done || lia);
        by rewrite Nat2Z.id).
  cbn [fst snd].
  destruct (drag_replot_ok odeint g
              (with_charges (mkWidget (Some p) (Some k) true qa c pl) c'))
    as (ps & e & -> & He).
  { unfold wf in *. cbn. by rewrite length_insert. }
  by exists ps, e.
Qed.

Lemma mouse_moves_dragging events last_move w (p : F * F) (k : nat) :
  mouse_pressed_pos w = Some p -> closest_k w = Some k ->
  wf (charges w) -> k < size (charges w) ->
  last events = Some last_move ->
  exists ps es,
    mouse_moves odeint events w
    = (mkWidget (Some p) (Some k) true (qadd w)
         (mkCharges (_q (charges w))
            (<[k := (stored (xdata last_move.2), stored (ydata last_move.2))]>
               (_pos (charges w))))
         ps, es) /\
    (Forall (fun ge => silent ge.1) events -> es = []).
Proof.
  revert w. induction events as [|e events IH]; intros w Hp Hk Hwf Hlt Hlast;
    [done|].
  cbn [mouse_moves].
  destruct (on_mouse_move_dragging e.1 e.2 w p k Hp Hk Hwf Hlt)
    as (ps1 & e1 & -> & He1).
  cbn [fst snd].
  destruct events as [|e' events'].
  { cbn in Hlast. injection Hlast as <-. exists ps1, (option_list e1).
    cbn. rewrite app_nil_r. split; [done|].
    intros Hall. apply Forall_cons in Hall as [Hg _]. by rewrite He1. }
  rewrite last_cons_cons in Hlast.
  destruct (IH (mkWidget (Some p) (Some k) true (qadd w)
                  (mkCharges (_q (charges w))
                     (<[k := (stored (xdata e.2), stored (ydata e.2))]>
                        (_pos (charges w)))) ps1)) as (ps & es & -> & Hes);
    try done.
  { unfold wf in *. cbn. by rewrite length_insert. }
  exists ps, (option_list e1 ++ es). cbn [fst snd qadd charges _q _pos].
  rewrite list_insert_insert_eq. split; [done|].
  intros Hall. apply Forall_cons in Hall as [Hg Hall].
  by rewrite He1, Hes.
Qed.

(** X20. Dragging moves a charge and never deletes it: after a press inside
    the axes for which [get_closest] finds charge [k], at least one move,
    and a release, the magnitudes are as before, and the position of
    charge [k] is that of the last move, whatever the canvas raises on
    the way; when the last move was outside the axes the position is
    (NaN, NaN).  The press does not raise; the moves raise nothing when
    the canvas does not; the release raises what [self.draw()] raises at
    the end of [plot_fieldlines], and nothing else, and resets the
    attributes of the gesture when that call returns. *)
Theorem drag_gesture g event events last_move release w (x y : F) (k : nat) :
  wf (charges w) ->
  xdata event = Some x -> ydata event = Some y ->
  get_closest (x, y) flit_0p2 (charges w) = Ok (Some k) ->
  last events = Some last_move ->
  let r1 := on_mouse_press event w in
  let r2 := mouse_moves odeint events r1.1 in
  let r3 := on_mouse_release odeint g release r2.1 in
  r1.2 = None /\
  (Forall (fun ge => silent ge.1) events -> r2.2 = []) /\
  _q (charges r3.1) = _q (charges w) /\
  _pos (charges r3.1)
  = <[k := (stored (xdata last_move.2), stored (ydata last_move.2))]>
      (_pos (charges w)) /\
  _pos (charges r3.1) !! k
  = Some (stored (xdata last_move.2), stored (ydata last_move.2)) /\
  (xdata last_move.2 = None -> ydata last_move.2 = None ->
   _pos (charges r3.1) !! k = Some (fnan, fnan)) /\
  r3.2 = draw g (plot r3.1) /\
  (r3.2 = None -> mouse_pressed_pos r3.1 = None /\ closest_k r3.1 = None).
Proof.
  intros Hwf Hx Hy Hk Hlast. cbn zeta.
  assert (k < size (charges w)) as Hlt.
  { assert (_pos (charges w) ≠ []) as Hne.
    { intros Hnil. by rewrite (get_closest_no_charge _ _ _ Hnil) in Hk. }
    destruct (get_closest_some_charge (x, y) flit_0p2 (charges w) Hne)
      as (r & Hr & Hrange).
    unfold size, wf in *. rewrite Hwf. apply Hrange. congruence. }
  rewrite (on_mouse_press_Ok event w x y (Some k) Hx Hy Hk). cbn [fst snd].
  destruct (mouse_moves_dragging events last_move
              (mkWidget (Some (x, y)) (Some k) false (qadd w) (charges w)
                 (plot w)) (x, y) k) as (ps2 & es & -> & Hes); try done.
  cbn [fst snd charges qadd].
  unfold on_mouse_release. cbn [closest_k dragging].
  set (c' := mkCharges (_q (charges w))
               (<[k := (stored (xdata last_move.2),
                        stored (ydata last_move.2))]>
                  (_pos (charges w)))).
  destruct (replot_and_reset_ok odeint g
              (mkWidget (Some (x, y)) (Some k) true (qadd w) c' ps2))
    as [ps ->].
  { unfold wf in *. cbn. by rewrite length_insert. }
  assert (<[k := (stored (xdata last_move.2), stored (ydata last_move.2))]>
            (_pos (charges w)) !! k
          = Some (stored (xdata last_move.2), stored (ydata last_move.2)))
    as Hlook.
  { apply list_lookup_insert_eq. unfold size, wf in *. lia. }
  cbn [fst snd].
  destruct (draw g ps) as [e|] eqn:Hdraw; cbn; rewrite Hdraw;
    split_and!; try done; intros Hxn Hyn; by rewrite Hlook, Hxn, Hyn.
Qed.

(** X21. A release with no press inside the axes before it (a click on the
    margin of the figure) calls [add_charge] with the position [None]: the
    handler raises [ValueError] after [self._q] has grown by the magnitude
    [round(qadd)], so the collection is left with one magnitude more than
    positions, and every later [plot_fieldlines] raises [IndexError]. *)
Theorem release_without_press g release w (q : F) :
  wf (charges w) ->
  closest_k w = None -> mouse_pressed_pos w = None ->
  py_round (qadd w) = inr q ->
  let r := on_mouse_release odeint g release w in
  r = (with_charges w (mkCharges (_q (charges w) ++ [q]) (_pos (charges w))),
       Some (EngineError ValueError)) /\
  unbalanced (charges r.1) /\
  forall g' n sr lmax npoints,
    (0 < n)%Z -> (0 <= npoints)%Z ->
    (plot_fieldlines odeint g' n sr lmax npoints r.1).2
    = Some (EngineError IndexError).
Proof.
  intros Hwf Hk Hp Hq. cbn zeta.
  assert (on_mouse_release odeint g release w
          = (with_charges w
               (mkCharges (_q (charges w) ++ [q]) (_pos (charges w))),
             Some (EngineError ValueError))) as ->.
  { unfold on_mouse_release. by rewrite Hk, Hq, Hp. }
  cbn [fst snd charges with_charges].
  assert (unbalanced
            (mkCharges (_q (charges w) ++ [q]) (_pos (charges w)))) as Hunb.
  { unfold unbalanced, wf in *. cbn. rewrite length_app. cbn. lia. }
  repeat split; [done|].
  intros g' n sr lmax npoints Hn Hnp. unfold plot_fieldlines.
  cbn [charges].
  by rewrite (field_lines_unbalanced odeint n sr lmax npoints _ Hunb Hn Hnp).
Qed.

(** X22. What the handlers keep: on a collection whose arrays have the same
    length, a move changes no magnitude and keeps the arrays of the same
    length, whether it raises or not; so does a release, unless it
    comes with neither a selected charge nor a recorded press. *)
Theorem handlers_keep_wf g event w :
  wf (charges w) ->
  (wf (charges (on_mouse_move odeint g event w).1) /\
   _q (charges (on_mouse_move odeint g event w).1) = _q (charges w)) /\
  (closest_k w ≠ None \/ mouse_pressed_pos w ≠ None ->
   wf (charges (on_mouse_release odeint g event w).1)).
Proof.
  intros Hwf. split.
  - unfold on_mouse_move.
    destruct (mouse_pressed_pos w) as [p|]; [|done].
    destruct (closest_k w) as [k|].
    + cbn [charges].
      destruct (set_position_total (Z.of_nat k)
                  (stored (xdata event), stored (ydata event)) (charges w) Hwf)
        as (c' & Hc' & Hwf' & Hq).
      rewrite (set_position_run_Ok _ _ _ _ Hc'). cbn [fst snd].
      by rewrite charges_drag_replot.
    + by destruct (xdata event).
  - intros Hsel. unfold on_mouse_release.
    destruct (closest_k w) as [k|].
    + destruct (dragging w).
      * by rewrite charges_replot_and_reset.
      * destruct (delete_charge_total (Z.of_nat k) (charges w) Hwf)
          as (c' & Hc' & Hwf').
        rewrite (delete_charge_run_Ok _ _ _ Hc'). cbn [fst snd].
        by rewrite charges_replot_and_reset.
    + destruct Hsel as [Hsel|Hsel]; [done|].
      destruct (mouse_pressed_pos w) as [p|]; [|done].
      destruct (py_round (qadd w)) as [e|q]; [done|].
      rewrite add_charge_run_Some. cbn [fst snd].
      rewrite charges_replot_and_reset. by apply wf_add_charge.
Qed.

End GestureFacts.

Section UnbalancedFacts.
Context {F : Type} `{Numeric F} `{Trig F}.
Variable odeint : (F * F -> F -> F * F) -> F * F -> list F -> list (F * F).
Implicit Types (c : Charges F).

(** X15. A collection with one magnitude more than positions stays so under
    [add_charge] and under every [delete_charge] and [set_position] that
    returns; on it [get_charges] raises [IndexError], and so does
    [field_lines] for a positive number of lines and a non-negative
    number of points. *)
Theorem unbalanced_persists c :
  unbalanced c ->
  get_charges c = Raise IndexError /\
  (forall n sr lmax npoints, (0 < n)%Z -> (0 <= npoints)%Z ->
     field_lines odeint n sr lmax npoints c = Raise IndexError) /\
  (forall q xy, unbalanced (add_charge q xy c)) /\
  (forall k c', delete_charge k c = Ok c' -> unbalanced c') /\
  (forall k xy c', set_position k xy c = Ok c' -> unbalanced c').
Proof.
  intros Hc. split; [by apply get_charges_unbalanced|]. split; [|split; [|split]].
  - intros n sr lmax npoints Hn Hnp. by apply field_lines_unbalanced.
  - intros q xy. unfold unbalanced, add_charge, np_stack in *. cbn.
    rewrite !length_app. cbn. lia.
  - intros k c'. unfold delete_charge.
    destruct (_ && _)%Z eqn:Hk; [|by intros [= <-]].
    apply range_guard in Hk. unfold np_delete.
    rewrite (np_index_in_range (length (_q c)) k) by done. cbn.
    unfold np_index.
    destruct (_ || _)%Z eqn:Hk'; [done|]. cbn. intros [= <-].
    apply orb_false_iff in Hk' as [_ Hk']. apply Z.leb_gt in Hk'.
    replace ((k <? 0)%Z) with false by (symmetry; apply Z.ltb_ge; lia).
    unfold unbalanced in *. cbn.
    rewrite !length_delete by (apply lookup_lt_is_Some; lia). lia.
  - intros k xy c'. unfold set_position.
    destruct (_ && _)%Z; [|by intros [= <-]].
    unfold np_setitem. destruct (np_index _ _); [|done]. cbn.
    intros [= <-]. unfold unbalanced in *. cbn. by rewrite length_insert.
Qed.

End UnbalancedFacts.

(** ** The further properties on concrete configurations *)

Lemma add_charge_appends_witness :
  _q (add_charge 2%float (3, 4)%float quadrupole) !! 4 = Some 2%float /\
  _pos (add_charge 2%float (3, 4)%float quadrupole) !! 4 = Some (3, 4)%float.
Proof.
  destruct (add_charge_appends 2%float (3, 4)%float quadrupole wf_quadrupole)
    as (_ & _ & Hq & Hxy & _).
  split; [exact Hq | exact Hxy].
Defined.

Lemma delete_added_charge_witness :
  delete_charge 4 (add_charge 2%float (3, 4)%float quadrupole) = Ok quadrupole.
Proof.
  exact (delete_added_charge 2%float (3, 4)%float quadrupole wf_quadrupole).
Defined.

Lemma set_position_overwrite_commute_witness :
  (set_position 1 (2, 2)%float (quadrupole (F := float))
     ≫= set_position 1 (3, 3)%float)
  = set_position 1 (3, 3)%float quadrupole.
Proof.
  destruct (set_position_overwrite_commute 1 1 (2, 2)%float (3, 3)%float
              (quadrupole (F := float)) wf_quadrupole) as [Hover _].
  exact Hover.
Defined.

Lemma get_charges_lists_all_witness :
  exists l, get_charges (quadrupole (F := float)) = Ok l /\
    get_charges (add_charge 2%float (3, 4)%float quadrupole)
    = Ok (l ++ [(2, (3, 4))]%float).
Proof.
  destruct (get_charges_lists_all 2%float (3, 4)%float
              (quadrupole (F := float)) wf_quadrupole)
    as (l & Hl & _ & _ & Hadd).
  exists l. split; [exact Hl | exact Hadd].
Defined.

Lemma get_closest_in_range_witness :
  get_closest (nan, 0)%float 0.2%float quadrupole = Ok None \/
  exists i, get_closest (nan, 0)%float 0.2%float quadrupole = Ok (Some i) /\
            i < 4.
Proof.
  apply (get_closest_in_range (nan, 0)%float 0.2%float quadrupole).
  - discriminate.
  - reflexivity.
Defined.

Lemma get_closest_on_charge_witness :
  exists i, i <= 1 /\
    get_closest (-1, 0)%R (1 / 5)%R (quadrupole (F := R)) = Ok (Some i).
Proof.
  destruct (get_closest_on_charge (quadrupole (F := R)) 1 (-1, 0)%R (1 / 5)%R)
    as (i & Hi & _ & Hg); [reflexivity | lra |].
  exists i. split; [exact Hi | exact Hg].
Defined.

Lemma zero_charge_no_field_witness :
  scaled_electric_field (0, 0)%R (add_charge 0%R (3, 3)%R quadrupole)
  = scaled_electric_field (0, 0)%R (quadrupole (F := R)).
Proof.
  apply (zero_charge_no_field quadrupole (3, 3)%R (0, 0)%R wf_quadrupole).
  intros [= Hx _]. lra.
Defined.

Lemma single_charge_radial_witness :
  exists lam,
    scaled_electric_field (3, 4)%R (add_charge 2%R (0, 0)%R init)
    = (lam * (3 - 0), lam * (4 - 0))%R /\ (0 < lam)%R.
Proof.
  destruct (single_charge_radial 2%R (0, 0)%R (3, 4)%R)
    as (lam & Hf & Hpos & _); [intros [= Hx _]; lra|].
  exists lam. split; [exact Hf | apply Hpos; lra].
Defined.

Lemma field_lines_no_sources_witness :
  field_lines (H0 := series_trig) euler_odeint 32 0.2%float 10%float 801
    (add_charge (-1)%float (0, 1)%float (add_charge 0%float (0, 0)%float init))
  = Ok [].
Proof.
  apply (field_lines_no_sources (H0 := series_trig) euler_odeint);
    [lia | lia | reflexivity | repeat constructor].
Defined.

Lemma start_angles_values_witness :
  exists angles : list R, start_angles 4 = Ok angles /\
    angles !! 0 = Some ((2 * INR 0 + 3) * PI / 4)%R.
Proof.
  destruct (start_angles_values 4) as (angles & Ha & _ & Hval); [lia|].
  exists angles. split; [exact Ha|]. apply (Hval 0). cbn. lia.
Defined.

Lemma get_closest_nan_position_witness :
  get_closest (1, 0)%float 0.2%float
    (mkCharges [1; 1]%float [(1, 0); (nan, nan)]%float) = Ok None.
Proof.
  apply (get_closest_nan_position
           (mkCharges [1; 1]%float [(1, 0); (nan, nan)]%float)
           (1, 0)%float 0.2%float 1 (nan, nan)%float);
    reflexivity.
Defined.

Lemma field_nan_position_witness :
  scaled_electric_field (5, 5)%float
    (mkCharges [1; 1]%float [(1, 0); (nan, nan)]%float) = (nan, nan).
Proof.
  apply (field_nan_position
           (mkCharges [1; 1]%float [(1, 0); (nan, nan)]%float)
           (5, 5)%float 1 (nan, nan)%float);
    reflexivity.
Defined.

Lemma unbalanced_persists_witness :
  get_charges (mkCharges [1; 0]%float [(1, 0)%float]) = Raise IndexError.
Proof.
  destruct (unbalanced_persists (H0 := series_trig) euler_odeint
              (mkCharges [1; 0]%float [(1, 0)%float])) as [Hg _];
    [reflexivity | exact Hg].
Defined.

Section WindowExamples.
#[local] Existing Instance series_trig.

Lemma plot_fieldlines_draws_witness :
  exists fls ps,
    field_lines euler_odeint 32 0.2%float 10%float 801 quadrupole = Ok fls /\
    plot_fieldlines euler_odeint failing_canvas 32 0.2%float 10%float 801
      start_widget
    = (with_plot start_widget ps, Some OverflowError) /\
    length (ax ps) = length fls * 5.
Proof.
  destruct (plot_fieldlines_draws euler_odeint failing_canvas
              32 0.2%float 10%float 801 start_widget)
    as (fls & ps & Hfl & Hplot & _ & _ & _ & Hlen & _);
    [lia | lia | reflexivity |].
  exists fls, ps. repeat split; [exact Hfl | exact Hplot | exact Hlen].
Defined.

Lemma click_deletes_charge_witness :
  exists c' ps,
    delete_charge 0 (quadrupole (F := float)) = Ok c' /\
    on_mouse_release euler_odeint quiet_canvas (mkEvent None None)
      (on_mouse_press (mkEvent (Some 1.05%float) (Some 0.02%float))
         start_widget).1
    = (mkWidget None None false 0%float c' ps, None).
Proof.
  destruct (click_deletes_charge euler_odeint quiet_canvas
              (mkEvent (Some 1.05%float) (Some 0.02%float))
              (mkEvent None None) start_widget 1.05%float 0.02%float 0)
    as (c' & ps & Hc' & _ & _ & Hrel);
    [reflexivity | reflexivity | reflexivity | vm_compute; reflexivity |].
  cbn zeta in Hrel. destruct Hrel as (_ & _ & _ & Hreset & _).
  exists c', ps. split; [exact Hc' | apply Hreset; reflexivity].
Defined.

Lemma add_gesture_witness :
  charges
    (on_mouse_release euler_odeint failing_canvas (mkEvent None None)
       (mouse_moves euler_odeint
          [(quiet_canvas, mkEvent (Some 4.6%float) (Some 3%float))]
          (on_mouse_press (mkEvent (Some 3%float) (Some 3%float))
             start_widget).1).1).1
  = add_charge 2%float (3, 3)%float quadrupole.
Proof.
  destruct (add_gesture euler_odeint failing_canvas
              (mkEvent (Some 3%float) (Some 3%float))
              [(quiet_canvas, mkEvent (Some 4.6%float) (Some 3%float))]
              (mkEvent None None) start_widget 3%float 3%float 2%float)
    as (_ & _ & Hc & _);
    [reflexivity | reflexivity | reflexivity | reflexivity
    | left; vm_compute; reflexivity
    | repeat constructor; by eexists
    | vm_compute; reflexivity |].
  exact Hc.
Defined.

Lemma drag_gesture_witness :
  _pos (charges
    (on_mouse_release euler_odeint quiet_canvas (mkEvent None None)
       (mouse_moves euler_odeint
          [(failing_canvas, mkEvent (Some 2%float) (Some 2%float));
           (quiet_canvas, mkEvent None None)]
          (on_mouse_press (mkEvent (Some 1.05%float) (Some 0.02%float))
             start_widget).1).1).1) !! 0
  = Some (nan, nan).
Proof.
  destruct (drag_gesture euler_odeint quiet_canvas
              (mkEvent (Some 1.05%float) (Some 0.02%float))
              [(failing_canvas, mkEvent (Some 2%float) (Some 2%float));
               (quiet_canvas, mkEvent None None)]
              (quiet_canvas, mkEvent None None) (mkEvent None None)
              start_widget 1.05%float 0.02%float 0)
    as (_ & _ & _ & _ & _ & Hnan & _);
    [reflexivity | reflexivity | reflexivity | vm_compute; reflexivity
    | reflexivity |].
  apply Hnan; reflexivity.
Defined.

Lemma release_without_press_witness :
  on_mouse_release euler_odeint quiet_canvas (mkEvent None None) start_widget
  = (with_charges start_widget
       (mkCharges (_q quadrupole ++ [0%float]) (_pos quadrupole)),
     Some (EngineError ValueError)).
Proof.
  destruct (release_without_press euler_odeint quiet_canvas (mkEvent None None)
              start_widget 0%float) as [Hr _];
    [reflexivity | reflexivity | reflexivity | vm_compute; reflexivity |].
  exact Hr.
Defined.

Lemma handlers_keep_wf_witness :
  _q (charges (on_mouse_move euler_odeint quiet_canvas
                 (mkEvent (Some 2%float) (Some 2%float)) start_widget).1)
  = _q (quadrupole (F := float)).
Proof.
  destruct (handlers_keep_wf euler_odeint quiet_canvas
              (mkEvent (Some 2%float) (Some 2%float)) start_widget)
    as [[_ Hq] _]; [reflexivity | exact Hq].
Defined.

End WindowExamples.

(** [round] on binary64: ties go to the even integer, the sign of a zero
    result is dropped, NaN and the infinities raise, and an integer that
    does not fit 64 bits is not stored as a float. *)
Example py_round_values :
  py_round <$> [0.5; 1.5; 2.5; -0.5; -2.5; 7.6; -3.7; nan; infinity;
                0x1p63; -0x1p63; 0x1p64; -0x1p64]%float
  = [inr 0; inr 2; inr 2; inr 0; inr (-2); inr 8; inr (-4);
     inl (EngineError ValueError); inl OverflowError;
     inr 0x1p63; inr (-0x1p63); inl TypeError; inl TypeError]%float.
Proof. vm_compute. reflexivity. Qed.
